(** * Gerador de carrosseis: style resolution, text layout, slide
    rasterisation, background orchestration and batch export.

    Shallow embedding of [src/App.tsx] (the functions [getFontDetails],
    [getColorPalette], [wrapText], [renderSlideToBlob] and the
    [CarouselPreview] component with its effect and [handleDownloadZip]) and
    of the data model of [src/types.ts].

    Conventions.
    - A JavaScript string is a [string].  Literals with accents are kept in
      UTF-8; since UTF-8 is self-synchronising, [includes] on the bytes
      agrees with [String.prototype.includes] on the characters.
    - [ordem] is an integer ([Type.INTEGER] in the response schema): [Z].
    - Widths returned by [measureText] and canvas coordinates are finite
      doubles.  Every constant the program computes with ([1080 * 0.85],
      [918 * 2.5], [fontSize * 1.2] for the sizes 30, 35, ..., 90, [1080 / 2])
      is an integer that double arithmetic yields exactly, so they are
      modelled as rationals [Q] and compared with [Qle_bool].  The one sum
      the code computes on them, [y += lineHeight] in [wrapText], is exact
      rational addition here: it is the double addition wherever the sums are
      exactly representable, as on the integers [renderSlideToBlob] passes,
      and a statement about the positions of [wrapText] on its own carries
      that as a hypothesis.
    - A style field of a carousel ([estilo_fundo], [paleta_cores],
      [tipografia]) is an [option string] in the record, [None] being the
      missing key ([undefined]).  The reply can also carry [null] there; the
      type [Token] and the call-site functions on it tell the two apart.
    - [Record<number, string>] is a [gmap Z string].
    - The browser and the libraries the code calls ([measureText],
      [toUpperCase], [canvas.getContext], [canvas.toBlob], image decoding,
      [generateImage], [JSZip]) are parameters of the functions that use
      them. *)

From Stdlib Require Import ZArith QArith Ascii DecimalString DecimalPos DecimalZ.
From Equations Require Import Equations.
From stdpp Require Import gmap strings list sorting.

Local Open Scope Z_scope.

(** ** Data model ([src/types.ts]) *)

Inductive Language := pt | en | es.

Inductive SlideKind := capa | conteudo | cta.

Record Slide := {
  ordem : Z;
  tipo : SlideKind;
  frase : string;
  instrucoes_layout : string;
  prompt_imagem : string
}.

Record Carousel := {
  id : string;
  nicho : option string;
  contexto : option string;
  estilo_fundo : option string;
  paleta_cores : option string;
  tipografia : option string;
  cta_no_ultimo_slide : option bool;
  slides : list Slide
}.

(** ** JavaScript string primitives used by the code *)

(** [s.includes(needle)]: case-sensitive substring test. *)
Fixpoint includes (s needle : string) : bool :=
  String.prefix needle s ||
  match s with
  | EmptyString => false
  | String _ s' => includes s' needle
  end.

(** [s.startsWith(p)]. *)
Definition startsWith (s p : string) : bool := String.prefix p s.

(** [text.split(' ')]: the pieces between single spaces; never empty, and
    consecutive spaces give empty pieces. *)
Fixpoint split_space (s : string) : list string :=
  match s with
  | EmptyString => [""]
  | String c s' =>
      if Ascii.eqb c " " then "" :: split_space s'
      else match split_space s' with
           | w :: ws => String c w :: ws
           | [] => [String c ""]
           end
  end.

(** Template conversion [`${n}`] of an integer number: its decimal digits,
    after a minus sign when it is negative.  That is what JavaScript prints
    for the integers a number holds exactly and prints in full, the safe
    integers; above them a number prints the shortest digits that read back to
    it, and an exponent from [1e21] on, which this definition does not
    follow. *)
Definition number_to_string (n : Z) : string :=
  NilZero.string_of_int (Z.to_int n).

(** [Number.isSafeInteger(n)]. *)
Definition safeInteger (n : Z) : Prop := - (2 ^ 53 - 1) <= n <= 2 ^ 53 - 1.

(** [x || ''] on an optional string. *)
Definition or_empty (x : option string) : string := default "" x.

(** ** Style Resolver *)

(** An entry of [STYLE_OPTIONS.typography[lang]] (declared in the module
    [./constants], which [App.tsx] imports). *)
Record FontOption := {
  opt_name : string;
  opt_value : string;
  opt_fontFamily : string
}.

Inductive TextTransform := none | uppercase.

Record FontDetails := {
  fontFamily : string;
  textTransform : TextTransform;
  fontWeight : string
}.

Definition defaultFont : FontDetails :=
  {| fontFamily := "'Montserrat', sans-serif";
     textTransform := none;
     fontWeight := "700" |}.

(** [getFontDetails]; [typography lang] stands for
    [STYLE_OPTIONS.typography[lang]]. *)
Definition getFontDetails (typography : Language -> list FontOption)
    (typographyName : string) (lang : Language) : FontDetails :=
  match List.find (fun f => String.eqb (opt_value f) typographyName)
                  (typography lang) with
  | None => defaultFont
  | Some fontOption =>
      let details :=
        {| fontFamily := opt_fontFamily fontOption;
           textTransform := textTransform defaultFont;
           fontWeight := fontWeight defaultFont |} in
      if includes (opt_value fontOption) "Caixa alta"
         || includes (opt_value fontOption) "Uppercase"
         || includes (opt_value fontOption) "Mayúsculas"
      then {| fontFamily := fontFamily details;
              textTransform := uppercase;
              fontWeight := fontWeight details |}
      else details
  end.

Record Palette := { bg : string; text : string }.

Definition darkPalette : Palette := {| bg := "#1A1A1A"; text := "#E0E0E0" |}.
Definition vibrantPalette : Palette :=
  {| bg := "linear-gradient(135deg, #4F46E5, #9333EA)"; text := "#FFFFFF" |}.
Definition neutralPalette : Palette := {| bg := "#E5E7EB"; text := "#111827" |}.
Definition lightPalette : Palette := {| bg := "#F3EAD3"; text := "#3A3A3A" |}.

(** [getColorPalette] on a string or on no argument: [None] is the omitted
    or [undefined] argument, which the default parameter replaces by [''].
    The call with [null] is in [callGetColorPalette] below. *)
Definition getColorPalette (paletteName_opt : option string) : Palette :=
  let paletteName := default "" paletteName_opt in
  if includes paletteName "Escuro" || includes paletteName "Dark"
  then darkPalette
  else if includes paletteName "Vibrante" || includes paletteName "Vibrant"
  then vibrantPalette
  else if includes paletteName "Neutro" || includes paletteName "Neutral"
  then neutralPalette
  else lightPalette.

(** The three marker tests of [getColorPalette], named. *)
Definition darkMarker (paletteName : string) : bool :=
  includes paletteName "Escuro" || includes paletteName "Dark".
Definition vibrantMarker (paletteName : string) : bool :=
  includes paletteName "Vibrante" || includes paletteName "Vibrant".
Definition neutralMarker (paletteName : string) : bool :=
  includes paletteName "Neutro" || includes paletteName "Neutral".

(** What a style field of a carousel of the parsed reply can hold at run
    time: the key is missing ([undefined]), or holds [null] (the response
    schema of the service declares [estilo_fundo], [paleta_cores] and
    [tipografia] as nullable strings, and the parsed reply is cast to
    [ApiResponse] unchecked), or holds a string. *)
Inductive Token :=
| tok_undefined
| tok_null
| tok_string (s : string).

(** The call [getColorPalette(carousel.paleta_cores)] of [renderSlideToBlob]
    and of the preview.  The default of [paletteName = ''] applies to
    [undefined] only: with [null] the first test, [paletteName.includes(...)],
    throws a [TypeError] ([None]). *)
Definition callGetColorPalette (paleta_cores : Token) : option Palette :=
  match paleta_cores with
  | tok_undefined => Some (getColorPalette None)
  | tok_null => None
  | tok_string s => Some (getColorPalette (Some s))
  end.

(** The argument of [getFontDetails(carousel.tipografia || '', language)]:
    every falsy value gives ['']. *)
Definition tipografia_or_empty (tipografia : Token) : string :=
  match tipografia with
  | tok_string s => s
  | tok_undefined | tok_null => ""
  end.

(** [carousel.estilo_fundo?.includes('foto') ||
    carousel.estilo_fundo?.includes('photo')], the test of the preview's
    effect: the optional chaining gives [undefined], falsy, on [null] and on
    [undefined]. *)
Definition estilo_fundo_is_photo (estilo_fundo : Token) : bool :=
  match estilo_fundo with
  | tok_string s => includes s "foto" || includes s "photo"
  | tok_undefined | tok_null => false
  end.

(** ** The 2D canvas as a log of the calls made on it *)

Record HTMLImageElement := { src : string }.

Inductive Paint :=
| Solid (color : string)
| LinearGradient (x0 y0 x1 y1 : Q) (stops : list (Q * string)).

(** [ctx.font = `${fontWeight} ${fontSize}px ${fontFamily}`]. *)
Record Font := { font_weight : string; font_size : Z; font_family : string }.

Inductive CanvasOp :=
| DrawImage (img : HTMLImageElement) (x y w h : Q)
| SetFillStyle (p : Paint)
| FillRect (x y w h : Q)
| SetTextAlign (align : string)
| SetTextBaseline (baseline : string)
| SetFont (f : Font)
| FillText (line : string) (x y : Q).

Record Canvas := { width : Z; height : Z; ops : list CanvasOp }.

Definition Blob := list Byte.byte.

(** What the browser contributes to a rendering. *)
Record Browser := {
  measureText : Font -> string -> Q;      (* ctx.measureText(s).width under ctx.font *)
  toUpperCase : string -> string;         (* String.prototype.toUpperCase *)
  getContext2d : bool;                    (* does canvas.getContext('2d') give a context *)
  toBlob : Canvas -> option Blob          (* canvas.toBlob(cb, 'image/png'): cb's argument *)
}.

(** ** Text Layout Engine: [wrapText] *)

(** [a > b] on widths. *)
Definition Qgt_bool (a b : Q) : bool := negb (Qle_bool a b).

Record WrapState := {
  line : string;          (* let line *)
  cur_y : Q;              (* the parameter y, which the loop advances *)
  lines : nat;            (* let lines *)
  drawn : list CanvasOp   (* the fillText calls made so far *)
}.

(** The body of the [for] loop at index [n] with [words[n] = word].  The
    sum [y += lineHeight] is exact (see the conventions). *)
Definition wrap_step (measure : string -> Q) (x maxWidth lineHeight : Q)
    (st : WrapState) (n : nat) (word : string) : WrapState :=
  let testLine := line st +:+ word +:+ " " in
  let testWidth := measure testLine in
  if Qgt_bool testWidth maxWidth && (0 <? n)%nat then
    {| line := word +:+ " ";
       cur_y := (cur_y st + lineHeight)%Q;
       lines := S (lines st);
       drawn := drawn st ++ [FillText (line st) x (cur_y st)] |}
  else
    {| line := testLine; cur_y := cur_y st; lines := lines st; drawn := drawn st |}.

Fixpoint wrap_loop (measure : string -> Q) (x maxWidth lineHeight : Q)
    (words : list string) (n : nat) (st : WrapState) : WrapState :=
  match words with
  | [] => st
  | word :: rest =>
      wrap_loop measure x maxWidth lineHeight rest (S n)
        (wrap_step measure x maxWidth lineHeight st n word)
  end.

(** [wrapText(context, text, x, y, maxWidth, lineHeight)]: the [fillText]
    calls it makes, in order, and the number of lines it returns.
    [measure] is [context.measureText(_).width] under the context's font. *)
Definition wrapText (measure : string -> Q) (text : string)
    (x y maxWidth lineHeight : Q) : list CanvasOp * nat :=
  let words := split_space text in
  let st := wrap_loop measure x maxWidth lineHeight words 0
              {| line := ""; cur_y := y; lines := 0; drawn := [] |} in
  (drawn st ++ [FillText (line st) x (cur_y st)], S (lines st)).

(** The strings passed to [fillText], in order. *)
Definition filled_lines (l : list CanvasOp) : list string :=
  omap (fun op => match op with FillText s _ _ => Some s | _ => None end) l.

(** The lines [wrapText] draws; the coordinates play no part in where the
    breaks fall. *)
Definition wrapLines (measure : string -> Q) (maxWidth : Q) (text : string)
  : list string :=
  filled_lines (wrapText measure text 0 0 maxWidth 0).1.

(** Re-wrapping a sequence of lines: each line is given to [wrapText] again,
    in order. *)
Definition rewrap (measure : string -> Q) (maxWidth : Q) (ls : list string)
  : list string :=
  flat_map (wrapLines measure maxWidth) ls.

(** A drawn line with its final separator space removed. *)
Fixpoint chop (s : string) : string :=
  match s with
  | EmptyString => EmptyString
  | String c EmptyString => EmptyString
  | String c s' => String c (chop s')
  end.

(** [ws.join(' ')]. *)
Fixpoint join_space (ws : list string) : string :=
  match ws with
  | [] => ""
  | [w] => w
  | w :: rest => w +:+ " " +:+ join_space rest
  end.

(** A run of words as [wrapText] writes it: every word followed by a space. *)
Definition spaced (g : list string) : string :=
  foldr (fun w acc => w +:+ " " +:+ acc) "" g.

(** The loop of [wrapText] read on words instead of strings: the words of the
    lines committed so far and the words of the current line. *)
Fixpoint group_loop (measure : string -> Q) (maxWidth : Q) (words : list string)
    (n : nat) (done : list (list string)) (cur : list string)
  : list (list string) * list string :=
  match words with
  | [] => (done, cur)
  | word :: rest =>
      if Qgt_bool (measure (spaced cur +:+ word +:+ " ")) maxWidth && (0 <? n)%nat
      then group_loop measure maxWidth rest (S n) (done ++ [cur]) [word]
      else group_loop measure maxWidth rest (S n) done (cur ++ [word])
  end.

Definition wrapGroups (measure : string -> Q) (maxWidth : Q) (text : string)
  : list (list string) :=
  let r := group_loop measure maxWidth (split_space text) 0 [] [] in
  r.1 ++ [r.2].

(** Every prefix of at least two words of a line was measured and fitted. *)
Definition prefixes_fit (measure : string -> Q) (maxWidth : Q) (g : list string) : Prop :=
  forall k : nat, (2 <= k <= length g)%nat ->
    (measure (spaced (take k g)) <= maxWidth)%Q.

(** Wherever a line ends and another begins, the first word of the next line
    did not fit on the line before it. *)
Definition breaks_forced (measure : string -> Q) (maxWidth : Q)
    (gs : list (list string)) : Prop :=
  forall (i : nat) (g h : list string),
    gs !! i = Some g -> gs !! S i = Some h ->
    exists w rest, h = w :: rest /\ (maxWidth < measure (spaced g +:+ w +:+ " "))%Q.

(** A measure under which a piece of a string is never wider than the
    string. *)
Definition monotone (measure : string -> Q) : Prop :=
  forall a b c : string, (measure b <= measure (a +:+ b +:+ c))%Q.

(** A word as [split(' ')] yields it: no space inside. *)
Fixpoint no_space (w : string) : bool :=
  match w with
  | EmptyString => true
  | String c w' => negb (Ascii.eqb c " ") && no_space w'
  end.

(** A monospaced measure, ten units a character, for the examples. *)
Definition mono10 (s : string) : Q := inject_Z (10 * Z.of_nat (String.length s)).

(** ** Slide Rasterizer: [renderSlideToBlob] *)

Definition size : Z := 1080.

Definition baseFontSize (slide : Slide) : Z :=
  match tipo slide with capa => 90 | _ => 70 end.

Definition maxTextWidth : Q := inject_Z size * 0.85.

Definition mkFont (fontWeight : string) (fontSize : Z) (fontFamily : string) : Font :=
  {| font_weight := fontWeight; font_size := fontSize; font_family := fontFamily |}.

(** The [while] loop of the dynamic font size: the final [fontSize] and the
    assignments to [ctx.font] it made. *)
Equations? fontFitLoop (B : Browser) (fontWeight fontFamily text : string)
    (fontSize : Z) (assigned : list CanvasOp) : Z * list CanvasOp
    by wf (Z.to_nat (fontSize - 30)) lt :=
  fontFitLoop B fontWeight fontFamily text fontSize assigned
    with Z_lt_dec 30 fontSize := {
    | left _ =>
        if Qgt_bool (measureText B (mkFont fontWeight fontSize fontFamily) text)
                    (maxTextWidth * 2.5)
        then fontFitLoop B fontWeight fontFamily text (fontSize - 5)
               (assigned ++ [SetFont (mkFont fontWeight (fontSize - 5) fontFamily)])
        else (fontSize, assigned)
    | right _ => (fontSize, assigned) }.
Proof. lia. Qed.

(** The paint assigned to [ctx.fillStyle] for a palette background. *)
Definition backgroundPaint (colors : Palette) : Paint :=
  if startsWith (bg colors) "linear-gradient"
  then LinearGradient 0 0 (inject_Z size) (inject_Z size)
         [(0%Q, "#4F46E5"); (1%Q, "#9333EA")]
  else Solid (bg colors).

(** [text] of [renderSlideToBlob]: the phrase after the case transform. *)
Definition slideText (B : Browser) (details : FontDetails) (slide : Slide) : string :=
  match textTransform details with
  | uppercase => toUpperCase B (frase slide)
  | none => frase slide
  end.

(** The dynamic font size of a slide: [fontSize] after the loop, and the
    assignments to [ctx.font], the first one included. *)
Definition fitFont (B : Browser) (details : FontDetails) (slide : Slide)
  : Z * list CanvasOp :=
  fontFitLoop B (fontWeight details) (fontFamily details) (slideText B details slide)
    (baseFontSize slide)
    [SetFont (mkFont (fontWeight details) (baseFontSize slide) (fontFamily details))].

(** The canvas [renderSlideToBlob] has drawn when it calls [canvas.toBlob]. *)
Definition renderSlideCanvas (B : Browser) (typography : Language -> list FontOption)
    (slide : Slide) (carousel : Carousel) (language : Language)
    (bgImage : option HTMLImageElement) : Canvas :=
  let sz := inject_Z size in
  let background :=
    match bgImage with
    | Some img =>
        [DrawImage img 0 0 sz sz;
         SetFillStyle (Solid "rgba(0, 0, 0, 0.5)");
         FillRect 0 0 sz sz]
    | None =>
        let colors := getColorPalette (paleta_cores carousel) in
        [SetFillStyle (backgroundPaint colors); FillRect 0 0 sz sz]
    end in
  let details := getFontDetails typography (or_empty (tipografia carousel)) language in
  let textColor := text (getColorPalette (paleta_cores carousel)) in
  let txt := slideText B details slide in
  let prepare :=
    [SetFillStyle (Solid textColor); SetTextAlign "center"; SetTextBaseline "middle"] in
  let fit := fitFont B details slide in
  let fontSize := fit.1 in
  let lineHeight := (inject_Z fontSize * 1.2)%Q in
  let wrapped :=
    wrapText (measureText B (mkFont (fontWeight details) fontSize (fontFamily details)))
      txt (sz / 2) (sz / 2) maxTextWidth lineHeight in
  {| width := size; height := size;
     ops := background ++ prepare ++ fit.2 ++ wrapped.1 |}.

(** [renderSlideToBlob]: the blob the returned promise resolves with, [None]
    for [null]. *)
Definition renderSlideToBlob (B : Browser) (typography : Language -> list FontOption)
    (slide : Slide) (carousel : Carousel) (language : Language)
    (bgImage : option HTMLImageElement) : option Blob :=
  if getContext2d B
  then toBlob B (renderSlideCanvas B typography slide carousel language bgImage)
  else None.

(** ** Carousel Image Orchestrator: the effect of [CarouselPreview] *)

Definition isPhotoBg (carousel : Carousel) : bool :=
  match estilo_fundo carousel with
  | Some s => includes s "foto" || includes s "photo"
  | None => false
  end.

(** [if (url)]: [null] and the empty string are falsy. *)
Definition truthy (url : option string) : option string :=
  match url with
  | Some u => if String.eqb u "" then None else Some u
  | None => None
  end.

(** [results.forEach((url, index) => { if (url) urls[carousel.slides[index].ordem] = url })]
    on a fresh [urls].  [results] comes from [Promise.all] over
    [carousel.slides.map(...)], so every index has its slide. *)
Definition collectUrls (slides : list Slide) (results : list (option string))
  : gmap Z string :=
  foldl (fun urls '(index, url) =>
           match truthy url, slides !! index with
           | Some u, Some slide => <[ordem slide := u]> urls
           | _, _ => urls
           end)
        ∅ (imap pair results).

(** An in-flight call of [fetchImages]: the carousel its closure captured,
    the render it was started in, and one slot per [generateImage] promise
    ([None] while pending, [Some r] once it resolved with [r]). *)
Record Batch := {
  subject : Carousel;
  started_at : nat;
  slots : list (option (option string))
}.

(** One mounted [CarouselPreview]: its [carousel] prop, how many times the
    prop changed identity, the [imageUrls] and [isLoadingImages] states, the
    batches started so far and the prompts passed to [generateImage]. *)
Record PreviewState := {
  carousel : Carousel;
  generation : nat;
  imageUrls : gmap Z string;
  isLoadingImages : bool;
  batches : list Batch;
  requested : list string
}.

(** [Promise.all] resolved: the results in the order of the promises. *)
Definition settled (b : Batch) : bool := forallb (fun s => bool_decide (is_Some s)) (slots b).
Definition results_of (b : Batch) : list (option string) := map (default None) (slots b).

(** The continuation of [await Promise.all(promises)] in [fetchImages]. *)
Definition fetchImages_resume (st : PreviewState) (b : Batch) : PreviewState :=
  {| carousel := carousel st;
     generation := generation st;
     imageUrls := collectUrls (slides (subject b)) (results_of b);
     isLoadingImages := false;
     batches := batches st;
     requested := requested st |}.

(** The body of [useEffect(..., [carousel])]. *)
Definition runEffect (st : PreviewState) : PreviewState :=
  if isPhotoBg (carousel st) then
    let b := {| subject := carousel st;
                started_at := generation st;
                slots := map (fun _ => None) (slides (carousel st)) |} in
    let st1 :=
      {| carousel := carousel st;
         generation := generation st;
         imageUrls := imageUrls st;
         isLoadingImages := true;
         batches := batches st ++ [b];
         requested := requested st ++ map prompt_imagem (slides (carousel st)) |} in
    if settled b then fetchImages_resume st1 b else st1
  else st.

Definition mount (c : Carousel) : PreviewState :=
  runEffect {| carousel := c; generation := 0; imageUrls := ∅;
               isLoadingImages := false; batches := []; requested := [] |}.

Inductive Event :=
| CarouselChanged (c : Carousel)                    (* re-render with a new [carousel] object *)
| Resolved (b i : nat) (result : option string).    (* promise [i] of batch [b] resolves *)

Definition handle (st : PreviewState) (ev : Event) : PreviewState :=
  match ev with
  | CarouselChanged c =>
      runEffect {| carousel := c;
                   generation := S (generation st);
                   imageUrls := imageUrls st;
                   isLoadingImages := isLoadingImages st;
                   batches := batches st;
                   requested := requested st |}
  | Resolved b i result =>
      match batches st !! b with
      | Some batch =>
          match slots batch !! i with
          | Some None =>
              let batch' := {| subject := subject batch;
                               started_at := started_at batch;
                               slots := <[i := Some result]> (slots batch) |} in
              let st' := {| carousel := carousel st;
                            generation := generation st;
                            imageUrls := imageUrls st;
                            isLoadingImages := isLoadingImages st;
                            batches := <[b := batch']> (batches st);
                            requested := requested st |} in
              if settled batch' then fetchImages_resume st' batch' else st'
          | _ => st
          end
      | None => st
      end
  end.

Definition run (st : PreviewState) (evs : list Event) : PreviewState :=
  foldl handle st evs.

(** The promises of batch [b] resolving in the order of [arrivals], each
    given as the index of the promise and its result. *)
Definition resolutions (b : nat) (arrivals : list (nat * option string)) : list Event :=
  (fun p => Resolved b p.1 p.2) <$> arrivals.


(** The batch with promise [i] resolved to [r]. *)
Definition resolve_slot (batch : Batch) (i : nat) (r : option string) : Batch :=
  {| subject := subject batch;
     started_at := started_at batch;
     slots := <[i := Some r]> (slots batch) |}.

(** A batch is stale once the carousel changed after it was started. *)
Definition stale (st : PreviewState) (b : Batch) : Prop :=
  started_at b ≠ generation st.




(** The carousels a preview was rendered with: the one it was mounted with
    and those of the later changes, in order. *)
Definition carousels_seen (c : Carousel) (evs : list Event) : list Carousel :=
  c :: omap (fun ev => match ev with
                       | CarouselChanged c' => Some c'
                       | Resolved _ _ _ => None
                       end) evs.

(** ** Batch Exporter: [handleDownloadZip] *)

(** [zip.file(name, data)] of JSZip: the entries in the object's key order;
    writing an existing name replaces its data in place. *)
Fixpoint zip_file (name : string) (data : Blob) (files : list (string * Blob))
  : list (string * Blob) :=
  match files with
  | [] => [(name, data)]
  | (n, d) :: rest =>
      if String.eqb n name then (n, data) :: rest
      else (n, d) :: zip_file name data rest
  end.

Definition slideFileName (slide : Slide) : string :=
  "slide_" +:+ number_to_string (ordem slide) +:+ ".png".

(** The background image of a slide in the export loop; [decodes url] tells
    whether the [Image] with that [src] fires [onload] (else [onerror]). *)
Definition slideBackground (imageUrls : gmap Z string) (decodes : string -> bool)
    (slide : Slide) : option HTMLImageElement :=
  match truthy (imageUrls !! ordem slide) with
  | Some imageUrl => if decodes imageUrl then Some {| src := imageUrl |} else None
  | None => None
  end.

(** The [for (const slide of carousel.slides)] loop, for a given renderer. *)
Definition zipSlides (render : Slide -> option HTMLImageElement -> option Blob)
    (imageUrls : gmap Z string) (decodes : string -> bool) (slides : list Slide)
  : list (string * Blob) :=
  foldl (fun zip slide =>
           match render slide (slideBackground imageUrls decodes slide) with
           | Some blob => zip_file (slideFileName slide) blob zip
           | None => zip
           end)
        [] slides.

(** The entries the loop adds when no two slides share a file name: one per
    slide whose rendering gave a blob, in the order of the slides. *)
Definition renderedEntries (render : Slide -> option HTMLImageElement -> option Blob)
    (imageUrls : gmap Z string) (decodes : string -> bool) (slides : list Slide)
  : list (string * Blob) :=
  omap (fun slide =>
          pair (slideFileName slide)
            <$> render slide (slideBackground imageUrls decodes slide))
       slides.

(** The files in the archive when [zip.generateAsync] is called. *)
Definition exportEntries (B : Browser) (typography : Language -> list FontOption)
    (decodes : string -> bool) (carousel : Carousel) (language : Language)
    (imageUrls : gmap Z string) : list (string * Blob) :=
  zipSlides (fun slide bgImage =>
               renderSlideToBlob B typography slide carousel language bgImage)
    imageUrls decodes (slides carousel).

Inductive ExportOutcome :=
| Saved (content : Blob) (filename : string)   (* saveAs(content, `${carousel.id}.zip`) *)
| Alerted.                                     (* the catch branch *)

(** [handleDownloadZip]; [generateAsync files] is [None] when the packer
    rejects. *)
Definition handleDownloadZip (B : Browser) (typography : Language -> list FontOption)
    (decodes : string -> bool) (generateAsync : list (string * Blob) -> option Blob)
    (carousel : Carousel) (language : Language) (imageUrls : gmap Z string)
  : ExportOutcome :=
  match generateAsync (exportEntries B typography decodes carousel language imageUrls) with
  | Some content => Saved content (id carousel +:+ ".zip")
  | None => Alerted
  end.

(** ** Sample data for the examples *)

(** A catalog for the examples (the program's own lives in [./constants]). *)
Definition sampleTypography (lang : Language) : list FontOption :=
  match lang with
  | pt => [ {| opt_name := "Moderna"; opt_value := "Moderna sem serifa";
               opt_fontFamily := "'Inter', sans-serif" |};
            {| opt_name := "Caixa alta"; opt_value := "Caixa alta impactante";
               opt_fontFamily := "'Anton', sans-serif" |} ]
  | en => [ {| opt_name := "Uppercase"; opt_value := "Uppercase bold";
               opt_fontFamily := "'Anton', sans-serif" |} ]
  | es => [ {| opt_name := "Mayúsculas"; opt_value := "Mayúsculas llamativas";
               opt_fontFamily := "'Anton', sans-serif" |} ]
  end.

(** A browser with a monospaced font (a character is as wide as the font
    size), whose encoder gives the bytes of the drawn lines and fails on a
    canvas whose first line is "FAIL ". *)
Definition sampleBrowser : Browser :=
  {| measureText := fun f s => inject_Z (font_size f * Z.of_nat (String.length s));
     toUpperCase := fun s => s;
     getContext2d := true;
     toBlob := fun c =>
       match filled_lines (ops c) with
       | first :: rest =>
           if String.eqb first "FAIL " then None
           else Some (String.list_byte_of_string (spaced (first :: rest)))
       | [] => None
       end |}.

Definition sampleSlide (o : Z) (k : SlideKind) (phrase : string) : Slide :=
  {| ordem := o; tipo := k; frase := phrase;
     instrucoes_layout := "centro"; prompt_imagem := "imagem " +:+ phrase |}.

Definition sampleCarousel (style : option string) (l : list Slide) : Carousel :=
  {| id := "c1"; nicho := None; contexto := None; estilo_fundo := style;
     paleta_cores := None; tipografia := None; cta_no_ultimo_slide := None;
     slides := l |}.

(** Two carousels with the same [id] (the React key of the preview) and a
    photographic background. *)
Definition photoA : Carousel :=
  sampleCarousel (Some "foto realista") [sampleSlide 1 capa "A"].
Definition photoB : Carousel :=
  sampleCarousel (Some "foto realista") [sampleSlide 1 capa "B"; sampleSlide 2 cta "C"].


(** ** Further definitions: style, layout and canvas *)

(** The upper-case test of [getFontDetails], named. *)
Definition uppercaseMarker (value : string) : bool :=
  includes value "Caixa alta" || includes value "Uppercase"
  || includes value "Mayúsculas".

(** [y] after [i] executions of [y += lineHeight], the sums being exact. *)
Definition advance (y lineHeight : Q) (i : nat) : Q :=
  Nat.iter i (fun v => (v + lineHeight)%Q) y.

(** The [fillText] calls that draw the lines [ls] from [(x, y)] downwards. *)
Definition place (x y lineHeight : Q) (ls : list string) : list CanvasOp :=
  imap (fun i l => FillText l x (advance y lineHeight i)) ls.

(** The [fillText] calls among the calls made on a canvas. *)
Definition text_calls (l : list CanvasOp) : list CanvasOp :=
  List.filter (fun op => match op with FillText _ _ _ => true | _ => false end) l.


(** ** Further definitions: image generation service ([generateImage]) *)

(** A part of the model's reply: [part.inlineData], when present, carries
    the base64 [data]. *)
Record InlineData := { data : string }.
Record Part := { inlineData : option InlineData }.

(** [generateImage]; the argument is [response.candidates[0].content.parts],
    or [None] when anything inside the [try] throws (the request fails, or the
    reply has no candidates, content or parts): the [catch] returns [null]. *)
Definition generateImage (parts : option (list Part)) : option string :=
  match parts with
  | None => None
  | Some l =>
      match List.find (fun part => bool_decide (is_Some (inlineData part))) l with
      | Some part =>
          match inlineData part with
          | Some d => Some ("data:image/png;base64," +:+ data d)
          | None => None
          end
      | None => None
      end
  end.

(** The prompts the effect sends for a carousel. *)
Definition prompts_of (c : Carousel) : list string :=
  if isPhotoBg c then prompt_imagem <$> slides c else [].


(** ** Further definitions: preview navigation ([nextSlide], [prevSlide]) *)

(** [a % b] on integer numbers: the remainder takes the sign of the
    dividend, and a zero divisor gives [NaN] ([None]). *)
Definition js_rem (a b : Z) : option Z :=
  if b =? 0 then None else Some (Z.rem a b).

(** [setCurrentSlide(prev => (prev + 1) % carousel.slides.length)]; the state
    is a number, [None] standing for [NaN]. *)
Definition nextSlide (carousel : Carousel) (prev : option Z) : option Z :=
  prev ≫= fun p => js_rem (p + 1) (Z.of_nat (length (slides carousel))).

(** [setCurrentSlide(prev => (prev - 1 + carousel.slides.length) % carousel.slides.length)]. *)
Definition prevSlide (carousel : Carousel) (prev : option Z) : option Z :=
  prev ≫= fun p =>
    js_rem (p - 1 + Z.of_nat (length (slides carousel)))
           (Z.of_nat (length (slides carousel))).

(** The clicks the preview offers: the two arrows, rendered only when the
    carousel has more than one slide, and one dot per slide index. *)
Inductive Click := ClickNext | ClickPrev | ClickDot (index : nat).

Definition offered (carousel : Carousel) (ck : Click) : Prop :=
  match ck with
  | ClickNext | ClickPrev => (1 < length (slides carousel))%nat
  | ClickDot index => (index < length (slides carousel))%nat
  end.

Definition click (carousel : Carousel) (cur : option Z) (ck : Click) : option Z :=
  match ck with
  | ClickNext => nextSlide carousel cur
  | ClickPrev => prevSlide carousel cur
  | ClickDot index => Some (Z.of_nat index)
  end.

(** [const slide = carousel.slides[currentSlide]]. *)
Definition currentSlideOf (carousel : Carousel) (cur : option Z) : option Slide :=
  match cur with
  | Some k => if k <? 0 then None else slides carousel !! Z.to_nat k
  | None => None
  end.

(** ** Further definitions: generation state ([handleGeneration], [ResultsDisplay]) *)

Inductive GenerationMode := ia | csv.

Record ApiResponse := {
  mode : GenerationMode;
  language : Language;
  carrosseis : list Carousel
}.

(** The states [results], [isLoading] and [error] of [App]. *)
Record AppState := {
  results : option ApiResponse;
  isLoading : bool;
  error : option string
}.

(** How [await generationFn()] ends: with the data, or with an exception
    whose [message] may be missing. *)
Inductive GenerationOutcome :=
| Fulfilled (response : ApiResponse)
| Rejected (message : option string).

(** [handleGeneration] up to the [await]. *)
Definition generation_started (st : AppState) : AppState :=
  {| results := None; isLoading := true; error := None |}.

(** [handleGeneration] from the [await] on: [try], [catch], [finally]. *)
Definition generation_finished (outcome : GenerationOutcome) (st : AppState) : AppState :=
  match outcome with
  | Fulfilled response =>
      {| results := Some response; isLoading := false; error := error st |}
  | Rejected message =>
      {| results := results st; isLoading := false;
         error := Some (default "An unknown error occurred." (truthy message)) |}
  end.

Definition handleGeneration (outcome : GenerationOutcome) (st : AppState) : AppState :=
  generation_finished outcome (generation_started st).

(** What [ResultsDisplay] returns. *)
Inductive View :=
| ShowLoader
| ShowError (message : string)
| ShowNoResults
| ShowCarousels (previews : list Carousel).

Definition ResultsDisplay (st : AppState) : View :=
  if isLoading st then ShowLoader
  else match truthy (error st) with
       | Some message => ShowError message
       | None =>
           match results st with
           | None => ShowNoResults
           | Some response =>
               match carrosseis response with
               | [] => ShowNoResults
               | previews => ShowCarousels previews
               end
           end
       end.


(** ** Further definitions: grouping the CSV rows ([generateCarouselsFromCSV]) *)

Module Csv.
(** [CsvRow] of [src/types.ts]. *)
Record CsvRow := { carrossel_id : string; ordem_slide : Z; frase : string }.

(** [{ ordem: row.ordem_slide, frase: row.frase }]. *)
Record Item := { ordem : Z; frase_item : string }.
End Csv.

Definition itemOf (row : Csv.CsvRow) : Csv.Item :=
  {| Csv.ordem := Csv.ordem_slide row; Csv.frase_item := Csv.frase row |}.

(** The property names every object inherits from [Object.prototype] in a
    browser.  Read through [acc[key]] on the accumulator [{}] they give a
    function (or, for [__proto__], the prototype object): a truthy value
    without a [push] method. *)
Definition objectPrototypeKeys : list string :=
  ["constructor"; "__defineGetter__"; "__defineSetter__"; "hasOwnProperty";
   "__lookupGetter__"; "__lookupSetter__"; "isPrototypeOf";
   "propertyIsEnumerable"; "toString"; "valueOf"; "__proto__"; "toLocaleString"].

(** The callback of [csvData.reduce]; [None] when
    [acc[row.carrossel_id].push] is not a function and the call throws. *)
Definition addRow (acc : gmap string (list Csv.Item)) (row : Csv.CsvRow)
  : option (gmap string (list Csv.Item)) :=
  match acc !! Csv.carrossel_id row with
  | Some items => Some (<[Csv.carrossel_id row := items ++ [itemOf row]]> acc)
  | None =>
      if bool_decide (Csv.carrossel_id row ∈ objectPrototypeKeys) then None
      else Some (<[Csv.carrossel_id row := [itemOf row]]> acc)
  end.

Definition groupRows (rows : list Csv.CsvRow) : option (gmap string (list Csv.Item)) :=
  foldl (fun acc row => acc ≫= fun m => addRow m row) (Some ∅) rows.

(** [slides.sort((a, b) => a.ordem - b.ordem)]: the sort is stable, so its
    result is that of inserting the items one by one, each after the items
    that are not larger. *)
Fixpoint insertItem (x : Csv.Item) (l : list Csv.Item) : list Csv.Item :=
  match l with
  | [] => [x]
  | y :: l' =>
      if Csv.ordem x <? Csv.ordem y then x :: y :: l' else y :: insertItem x l'
  end.

Definition sortByOrdem (l : list Csv.Item) : list Csv.Item :=
  foldl (fun acc x => insertItem x acc) [] l.

(** [carouselsMap] of [generateCarouselsFromCSV] after the sort, as it is
    written into the prompt. *)
Definition carouselsMap (rows : list Csv.CsvRow) : option (gmap string (list Csv.Item)) :=
  match groupRows rows with
  | Some m => Some (sortByOrdem <$> m)
  | None => None
  end.

(** The items of the rows of one carousel, in the order of the rows. *)
Definition itemsOf (id : string) (rows : list Csv.CsvRow) : list Csv.Item :=
  itemOf <$> filter (fun row => Csv.carrossel_id row = id) rows.

(** Ascending [ordem]. *)
Definition le_ordem (a b : Csv.Item) : Prop := Csv.ordem a <= Csv.ordem b.


(** The accumulator of the [reduce]: no own key is inherited from
    [Object.prototype], and no key holds an empty list. *)
Definition acc_ok (m : gmap string (list Csv.Item)) : Prop :=
  (forall id, id ∈ objectPrototypeKeys -> m !! id = None)
  /\ (forall id, m !! id <> Some []).


(** ** Further definitions: reading the CSV file ([processFile]) *)

(** [s.split(sep)] for a separator of one character. *)
Fixpoint split_on (sep : ascii) (s : string) : list string :=
  match s with
  | EmptyString => [""]
  | String c s' =>
      if Ascii.eqb c sep then "" :: split_on sep s'
      else match split_on sep s' with
           | w :: ws => String c w :: ws
           | [] => [String c ""]
           end
  end.

(** [ws.join(sep)]. *)
Fixpoint join_on (sep : string) (ws : list string) : string :=
  match ws with
  | [] => ""
  | [w] => w
  | w :: rest => w +:+ sep +:+ join_on sep rest
  end.

(** A string without the character [sep]. *)
Fixpoint no_char (sep : ascii) (w : string) : bool :=
  match w with
  | EmptyString => true
  | String c w' => negb (Ascii.eqb c sep) && no_char sep w'
  end.

Definition comma : ascii := ","%char.
Definition newline : ascii := "010"%char.
Definition quote : ascii := "034"%char.

(** The [replace] of [processFile]: every double-quote character removed. *)
Fixpoint remove_quotes (s : string) : string :=
  match s with
  | EmptyString => EmptyString
  | String c s' =>
      if Ascii.eqb c quote then remove_quotes s' else String c (remove_quotes s')
  end.

(** What the [map] callback of [processFile] returns for a line:
    [ordem_slide] is [None] for [NaN]. *)
Record RawRow := {
  raw_id : string;
  raw_ordem : option Z;
  raw_frase : string
}.

(** The [map] callback; [trim] is [String.prototype.trim] and [parseInt]
    is [s => parseInt(s, 10)], applied to [undefined] ([None]) when the line
    has no second field.  Its result is an integer or [NaN]: numerals of more
    than 308 digits, which JavaScript reads as [Infinity], are outside the
    model. *)
Definition parseLine (trim : string -> string) (parseInt : option string -> option Z)
    (rowStr : string) : RawRow :=
  let fields := split_on comma rowStr in
  let carrossel_id := default "" (head fields) in
  let ordem_slide := head (tail fields) in
  let fraseParts := tail (tail fields) in
  {| raw_id := carrossel_id;
     raw_ordem := parseInt ordem_slide;
     raw_frase := trim (remove_quotes (join_on "," fraseParts)) |}.

(** The [filter] callback: [r.carrossel_id && !isNaN(r.ordem_slide) && r.frase]. *)
Definition keepRow (r : RawRow) : option Csv.CsvRow :=
  match raw_ordem r with
  | Some n =>
      if negb (String.eqb (raw_id r) "") && negb (String.eqb (raw_frase r) "")
      then Some {| Csv.carrossel_id := raw_id r; Csv.ordem_slide := n;
                   Csv.frase := raw_frase r |}
      else None
  | None => None
  end.

(** [processFile] on a file of MIME type [fileType] whose text is [text]:
    the rows given to [setCsvData], or [None] when the file is refused with an
    alert. *)
Definition processFile (trim : string -> string) (parseInt : option string -> option Z)
    (fileType text : string) : option (list Csv.CsvRow) :=
  if String.eqb fileType "text/csv"
  then Some (omap keepRow (parseLine trim parseInt <$> tail (split_on newline text)))
  else None.

(** A [trim] and a [parseInt] for the examples: spaces only, and unsigned
    decimal digits only. *)
Fixpoint trimStartSpaces (s : string) : string :=
  match s with
  | String " " s' => trimStartSpaces s'
  | _ => s
  end.

Definition sampleTrim (s : string) : string :=
  String.rev (trimStartSpaces (String.rev (trimStartSpaces s))).

Definition sampleParseInt (s : option string) : option Z :=
  match s with
  | Some str =>
      match NilEmpty.uint_of_string str with
      | Some d => if String.eqb str "" then None else Some (Z.of_uint d)
      | None => None
      end
  | None => None
  end.

(** * Properties *)

(** ** Style Resolver *)

Example getColorPalette_ex1 :
  getColorPalette (Some "Tons Escuro") = darkPalette.
Proof. reflexivity. Qed.

Example split_space_ex1 :
  split_space "a  b " = ["a"; ""; "b"; ""] /\ number_to_string 12 = "12"
  /\ number_to_string 0 = "0" /\ number_to_string (-3) = "-3".
Proof. repeat split. Qed.

Lemma getColorPalette_unfold (token : option string) :
  getColorPalette token =
    if darkMarker (default "" token) then darkPalette
    else if vibrantMarker (default "" token) then vibrantPalette
    else if neutralMarker (default "" token) then neutralPalette
    else lightPalette.
Proof. reflexivity. Qed.

Lemma getColorPalette_no_marker (token : option string) :
  darkMarker (default "" token) = false ->
  vibrantMarker (default "" token) = false ->
  neutralMarker (default "" token) = false ->
  getColorPalette token = lightPalette.
Proof. rewrite getColorPalette_unfold. by intros -> -> ->. Qed.

Lemma find_value_absent (l : list FontOption) (token : string) :
  token ∉ opt_value <$> l ->
  List.find (fun f => String.eqb (opt_value f) token) l = None.
Proof.
  induction l as [|f l IH]; [done|].
  rewrite fmap_cons, not_elem_of_cons. intros [Hne Hl]. simpl.
  destruct (String.eqb_spec (opt_value f) token) as [Heq|_].
  - by destruct Hne.
  - by apply IH.
Qed.

(** C3 (as the code has it).  The token is tested, case-sensitively, for
    the markers "Escuro"/"Dark", then "Vibrante"/"Vibrant", then
    "Neutro"/"Neutral"; the first test that succeeds fixes the palette and a
    token with none of the markers (or no token) gets the light palette.  The
    vibrant background is painted as a two-stop gradient along the canvas
    diagonal, every other background as a solid colour. *)
Theorem getColorPalette_first_marker (token : option string) :
  let t := default "" token in
  (darkMarker t = true -> getColorPalette token = darkPalette)
  /\ (darkMarker t = false -> vibrantMarker t = true ->
      getColorPalette token = vibrantPalette)
  /\ (darkMarker t = false -> vibrantMarker t = false -> neutralMarker t = true ->
      getColorPalette token = neutralPalette)
  /\ (darkMarker t = false -> vibrantMarker t = false -> neutralMarker t = false ->
      getColorPalette token = lightPalette)
  /\ backgroundPaint vibrantPalette =
       LinearGradient 0 0 (inject_Z 1080) (inject_Z 1080)
         [(0%Q, "#4F46E5"); (1%Q, "#9333EA")]
  /\ backgroundPaint darkPalette = Solid "#1A1A1A"
  /\ backgroundPaint neutralPalette = Solid "#E5E7EB"
  /\ backgroundPaint lightPalette = Solid "#F3EAD3"
  /\ text darkPalette = "#E0E0E0" /\ text vibrantPalette = "#FFFFFF"
  /\ text neutralPalette = "#111827" /\ text lightPalette = "#3A3A3A".
Proof.
  intros t. rewrite getColorPalette_unfold. fold t.
  repeat split; try reflexivity.
  - by intros ->.
  - by intros -> ->.
  - by intros -> -> ->.
  - by intros -> -> ->.
Qed.

Lemma getColorPalette_first_marker_witness :
  getColorPalette (Some "Vibrante Escuro") = darkPalette
  /\ getColorPalette (Some "Tons Vibrantes") = vibrantPalette
  /\ getColorPalette (Some "vibrante") = lightPalette.
Proof.
  split; [|split].
  - apply (getColorPalette_first_marker (Some "Vibrante Escuro")). reflexivity.
  - apply (getColorPalette_first_marker (Some "Tons Vibrantes")); reflexivity.
  - apply (getColorPalette_first_marker (Some "vibrante")); reflexivity.
Defined.

(** C3 (as stated) fails: a token can contain the vibrant marker and still
    not get the vibrant pair, because the dark test comes first; and the
    marker written in lower case is not recognised at all. *)
Lemma getColorPalette_vibrant_marker_overridden :
  ~ (forall t : string,
       includes t "Vibrante" = true -> getColorPalette (Some t) = vibrantPalette)
  /\ ~ (forall t : string,
          includes t "vibrante" = true -> getColorPalette (Some t) = vibrantPalette).
Proof.
  split; intros H.
  - specialize (H "Vibrante Escuro" eq_refl). discriminate H.
  - specialize (H "vibrante" eq_refl). discriminate H.
Qed.

(** The fallbacks on strings.  A typography token that is not a value of
    the language's catalog (the empty token that [carousel.tipografia || '']
    produces included) resolves to the default family, weight and no case
    transform; a palette string with no marker, and the omitted palette
    argument, resolve to the light palette. *)
Theorem style_tokens_fall_back_to_defaults
    (typography : Language -> list FontOption) (lang : Language) (token : string) :
  token ∉ opt_value <$> typography lang ->
  getFontDetails typography token lang =
    {| fontFamily := "'Montserrat', sans-serif"; textTransform := none;
       fontWeight := "700" |}
  /\ (or_empty None = "" /\ or_empty (Some "") = "")
  /\ getColorPalette None = lightPalette
  /\ (forall p : option string,
        darkMarker (default "" p) = false ->
        vibrantMarker (default "" p) = false ->
        neutralMarker (default "" p) = false ->
        getColorPalette p = {| bg := "#F3EAD3"; text := "#3A3A3A" |}).
Proof.
  intros Habsent. repeat split.
  - unfold getFontDetails. by rewrite find_value_absent.
  - apply getColorPalette_no_marker.
Qed.

Example getFontDetails_ex1 :
  textTransform (getFontDetails sampleTypography "Mayúsculas llamativas" es) = uppercase
  /\ textTransform (getFontDetails sampleTypography "Moderna sem serifa" pt) = none
  /\ getFontDetails sampleTypography "Moderna sem serifa" en = defaultFont.
Proof. repeat split. Qed.

Lemma style_tokens_fall_back_to_defaults_witness :
  getFontDetails sampleTypography (or_empty None) pt = defaultFont
  /\ getColorPalette (Some "Pastel") = lightPalette.
Proof.
  assert (Habsent : or_empty None ∉ opt_value <$> sampleTypography pt)
    by (apply (bool_decide_unpack _); vm_compute; exact I).
  destruct (style_tokens_fall_back_to_defaults sampleTypography pt (or_empty None) Habsent)
    as (Hfont & _ & _ & Hpal).
  split; [exact Hfont | apply Hpal; reflexivity].
Defined.

(** C4 fails on the code for the palette.  A carousel of the reply can hold
    [null] in its style fields.  The typography and the background style
    take it as an absent token: [carousel.tipografia || ''] gives the empty
    token, which resolves to the default font unless the catalog lists it,
    and [carousel.estilo_fundo?.includes] gives no photographic background.
    [getColorPalette(carousel.paleta_cores)] throws: its default parameter
    covers [undefined] only, which does resolve to the light palette, as does
    every string without a marker; [null] is the one palette token that
    fails. *)
Theorem getColorPalette_null_token_throws
    (typography : Language -> list FontOption) (lang : Language) :
  callGetColorPalette tok_null = None
  /\ callGetColorPalette tok_undefined = Some lightPalette
  /\ (forall t : Token, callGetColorPalette t = None <-> t = tok_null)
  /\ (forall s : string,
        darkMarker s = false -> vibrantMarker s = false -> neutralMarker s = false ->
        callGetColorPalette (tok_string s) = Some lightPalette)
  /\ tipografia_or_empty tok_null = tipografia_or_empty tok_undefined
  /\ ("" ∉ opt_value <$> typography lang ->
      getFontDetails typography (tipografia_or_empty tok_null) lang = defaultFont)
  /\ estilo_fundo_is_photo tok_null = false.
Proof.
  split; [done|]. split; [done|]. split; [|split; [|split; [done|split; [|done]]]].
  - intros t. by destruct t.
  - intros s Hd Hv Hn. simpl. f_equal. by apply (getColorPalette_no_marker (Some s)).
  - intros Habsent. unfold getFontDetails. by rewrite find_value_absent.
Qed.

Lemma getColorPalette_null_token_throws_witness :
  callGetColorPalette tok_null = None
  /\ callGetColorPalette (tok_string "Pastel") = Some lightPalette
  /\ getFontDetails sampleTypography (tipografia_or_empty tok_null) pt = defaultFont.
Proof.
  destruct (getColorPalette_null_token_throws sampleTypography pt)
    as (Hnull & _ & _ & Hstring & _ & Hfont & _).
  split; [exact Hnull|]. split.
  - apply Hstring; reflexivity.
  - apply Hfont. apply (bool_decide_unpack _). vm_compute. exact I.
Defined.

(** ** Slide Rasterizer: the dynamic font size *)

Lemma Qgt_bool_true (a b : Q) : Qgt_bool a b = true <-> (b < a)%Q.
Proof.
  unfold Qgt_bool. rewrite negb_true_iff, <- not_true_iff_false, Qle_bool_iff.
  split; [apply Qnot_le_lt | apply Qlt_not_le].
Qed.

Lemma Qgt_bool_false (a b : Q) : Qgt_bool a b = false <-> (a <= b)%Q.
Proof. unfold Qgt_bool. by rewrite negb_false_iff, Qle_bool_iff. Qed.

(** The loop as the source writes it: one test, one step. *)
Lemma fontFitLoop_while (B : Browser) (fw ff txt : string) (fs : Z)
    (assigned : list CanvasOp) :
  fontFitLoop B fw ff txt fs assigned =
    if Qgt_bool (measureText B (mkFont fw fs ff) txt) (maxTextWidth * 2.5)
       && (30 <? fs)
    then fontFitLoop B fw ff txt (fs - 5)
           (assigned ++ [SetFont (mkFont fw (fs - 5) ff)])
    else (fs, assigned).
Proof.
  simp fontFitLoop. destruct (Z_lt_dec 30 fs) as [Hlt|Hge]; simp fontFitLoop.
  - apply Z.ltb_lt in Hlt. rewrite Hlt, andb_true_r. reflexivity.
  - apply Z.ltb_nlt in Hge. rewrite Hge, andb_false_r. reflexivity.
Qed.

Lemma fontFitLoop_spec (B : Browser) (fw ff txt : string) (fs : Z)
    (assigned : list CanvasOp) :
  let r := (fontFitLoop B fw ff txt fs assigned).1 in
  r <= fs
  /\ (exists k : Z, 0 <= k /\ r = fs - 5 * k)
  /\ (30 <= fs -> (exists j : Z, fs = 30 + 5 * j) -> 30 <= r)
  /\ (r <= 30 \/ (measureText B (mkFont fw r ff) txt <= maxTextWidth * 2.5)%Q)
  /\ (forall k : Z, 0 <= k -> r < fs - 5 * k ->
        (maxTextWidth * 2.5 < measureText B (mkFont fw (fs - 5 * k)%Z ff) txt)%Q).
Proof.
  remember (Z.to_nat (fs - 30)) as n eqn:Hn.
  revert fs assigned Hn.
  induction n as [n IH] using lt_wf_ind. intros fs assigned Hn r.
  subst r. rewrite fontFitLoop_while.
  destruct (Qgt_bool _ _) eqn:Hw; simpl.
  - destruct (30 <? fs) eqn:Hfs; simpl.
    + apply Z.ltb_lt in Hfs.
      destruct (IH (Z.to_nat (fs - 5 - 30)) ltac:(lia) (fs - 5)
                  (assigned ++ [SetFont (mkFont fw (fs - 5) ff)]) eq_refl)
        as (Hle & (k & Hk & Hr) & Hfloor & Hexit & Habove).
      set (r := (fontFitLoop B fw ff txt (fs - 5) _).1) in *.
      split; [lia|]. split; [exists (k + 1); lia|].
      split; [intros _ [j Hj]; apply Hfloor; [lia | exists (j - 1); lia]|].
      split; [exact Hexit|].
      intros k' Hk' Hlt.
      destruct (decide (k' = 0)) as [->|Hne].
      * replace (fs - 5 * 0) with fs by lia. by apply Qgt_bool_true.
      * replace (fs - 5 * k') with (fs - 5 - 5 * (k' - 1)) by lia.
        apply Habove; lia.
    + apply Z.ltb_ge in Hfs.
      split; [lia|]. split; [exists 0; lia|]. split; [lia|].
      split; [left; lia|]. intros k Hk Hlt. lia.
  - apply Qgt_bool_false in Hw.
    split; [lia|]. split; [exists 0; lia|]. split; [lia|].
    split; [by right|]. intros k Hk Hlt. lia.
Qed.

(** C7.  The base size is 90 for a cover slide and 70 for a content or
    call-to-action slide.  From there the loop shrinks the size in steps of 5
    while the unwrapped text measures more than 2.5 times the wrap target
    (85% of 1080, so more than 2295) and the size is above 30; the size it ends
    with is never below 30, it is 30 or a size at which the text no longer
    exceeds the limit, and every larger size it passed did exceed it. *)
Theorem fitFont_shrinks_to_floor (B : Browser) (details : FontDetails) (slide : Slide) :
  let txt := slideText B details slide in
  let width_at (s : Z) :=
    measureText B (mkFont (fontWeight details) s (fontFamily details)) txt in
  let r := (fitFont B details slide).1 in
  baseFontSize slide = match tipo slide with capa => 90 | conteudo => 70 | cta => 70 end
  /\ (maxTextWidth == 85 / 100 * 1080)%Q
  /\ (maxTextWidth * 2.5 == 2295)%Q
  /\ 30 <= r <= baseFontSize slide
  /\ (exists k : Z, 0 <= k /\ r = baseFontSize slide - 5 * k)
  /\ (r = 30 \/ (width_at r <= 2295)%Q)
  /\ (forall k : Z, 0 <= k -> r < baseFontSize slide - 5 * k ->
        (2295 < width_at (baseFontSize slide - 5 * k)%Z)%Q).
Proof.
  intros txt width_at r.
  assert (Hlimit : (maxTextWidth * 2.5 == 2295)%Q) by reflexivity.
  destruct (fontFitLoop_spec B (fontWeight details) (fontFamily details) txt
              (baseFontSize slide)
              [SetFont (mkFont (fontWeight details) (baseFontSize slide)
                          (fontFamily details))])
    as (Hle & Hstep & Hfloor & Hexit & Habove).
  change (fontFitLoop _ _ _ _ _ _).1 with r in Hle, Hstep, Hfloor, Hexit, Habove.
  assert (Hbase : baseFontSize slide = match tipo slide with capa => 90 | conteudo => 70 | cta => 70 end)
    by (unfold baseFontSize; destruct (tipo slide); reflexivity).
  assert (H30 : 30 <= r).
  { apply Hfloor; rewrite Hbase; destruct (tipo slide);
      first [lia | exists 12; lia | exists 8; lia]. }
  split; [exact Hbase|]. split; [reflexivity|]. split; [exact Hlimit|].
  split; [lia|]. split; [exact Hstep|]. split.
  - destruct Hexit as [Hr|Hfit]; [left; lia | right].
    unfold width_at. by rewrite <- Hlimit.
  - intros k Hk Hlt. unfold width_at. rewrite <- Hlimit. by apply Habove.
Qed.

Example fitFont_ex1 :
  let B := {| measureText := fun f s => inject_Z (font_size f * Z.of_nat (String.length s));
              toUpperCase := fun s => s; getContext2d := true;
              toBlob := fun _ => None |} in
  let slide (n : nat) := {| ordem := 1; tipo := conteudo;
                            frase := String.string_of_list_ascii (replicate n "a"%char);
                            instrucoes_layout := ""; prompt_imagem := "" |} in
  (fitFont B defaultFont (slide 10%nat)).1 = 70
  /\ (fitFont B defaultFont (slide 40%nat)).1 = 55
  /\ (fitFont B defaultFont (slide 200%nat)).1 = 30.
Proof. vm_compute. repeat split. Qed.

(** ** Text Layout Engine: [wrapText] *)

Example wrapLines_ex1 :
  wrapLines mono10 100 "aaa bbb ccc dddddddddddd e" =
    ["aaa bbb "; "ccc "; "dddddddddddd "; "e "].
Proof. vm_compute. reflexivity. Qed.

Lemma str_app_nil_l (b : string) : "" +:+ b = b.
Proof. reflexivity. Qed.

Lemma str_app_cons (ch : ascii) (a b : string) :
  String ch a +:+ b = String ch (a +:+ b).
Proof. reflexivity. Qed.

Lemma str_app_assoc (a b c : string) : (a +:+ b) +:+ c = a +:+ (b +:+ c).
Proof.
  induction a as [|ch a IH]; [done|]. by rewrite !str_app_cons, IH.
Qed.

Lemma str_app_nil_r (a : string) : a +:+ "" = a.
Proof. induction a as [|ch a IH]; [done|]. by rewrite str_app_cons, IH. Qed.

Lemma str_length_app (a b : string) :
  String.length (a +:+ b) = (String.length a + String.length b)%nat.
Proof.
  induction a as [|ch a IH]; [done|]. rewrite str_app_cons. simpl. by rewrite IH.
Qed.

Lemma spaced_cons (w : string) (g : list string) :
  spaced (w :: g) = w +:+ " " +:+ spaced g.
Proof. reflexivity. Qed.

Lemma spaced_app (a b : list string) : spaced (a ++ b) = spaced a +:+ spaced b.
Proof.
  induction a as [|w a IH]; [done|].
  rewrite <- app_comm_cons, !spaced_cons, IH. by rewrite !str_app_assoc.
Qed.

Lemma spaced_snoc (cur : list string) (w : string) :
  spaced (cur ++ [w]) = spaced cur +:+ w +:+ " ".
Proof. by rewrite spaced_app. Qed.

Lemma filled_lines_snoc (l : list CanvasOp) (s : string) (x y : Q) :
  filled_lines (l ++ [FillText s x y]) = filled_lines l ++ [s].
Proof. unfold filled_lines. by rewrite omap_app. Qed.

(** The loop of [wrapText] read on words: [done] holds the words of the
    lines already drawn, [cur] the words of [line]. *)
Lemma wrap_loop_groups (measure : string -> Q) (x W lh : Q) (words : list string) :
  forall (n : nat) (st : WrapState) (done : list (list string)) (cur : list string),
    line st = spaced cur ->
    filled_lines (drawn st) = map spaced done ->
    lines st = length done ->
    let st' := wrap_loop measure x W lh words n st in
    let r := group_loop measure W words n done cur in
    line st' = spaced r.2
    /\ filled_lines (drawn st') = map spaced r.1
    /\ lines st' = length r.1.
Proof.
  induction words as [|w words IH]; intros n st done cur Hline Hdrawn Hcount; simpl.
  - done.
  - unfold wrap_step. rewrite Hline.
    destruct (Qgt_bool _ _ && _) eqn:Hc.
    + apply IH; simpl.
      * done.
      * by rewrite filled_lines_snoc, Hdrawn, map_app.
      * rewrite length_app. simpl. lia.
    + apply IH; simpl; [by rewrite spaced_snoc | done | done].
Qed.

Lemma wrapText_groups (measure : string -> Q) (text : string) (x y W lh : Q) :
  filled_lines (wrapText measure text x y W lh).1 = map spaced (wrapGroups measure W text)
  /\ (wrapText measure text x y W lh).2 = length (wrapGroups measure W text).
Proof.
  unfold wrapText, wrapGroups. simpl.
  destruct (wrap_loop_groups measure x W lh (split_space text) 0
              {| line := ""; cur_y := y; lines := 0; drawn := [] |} [] []
              eq_refl eq_refl eq_refl) as (Hline & Hdrawn & Hcount).
  destruct (group_loop measure W (split_space text) 0 [] []) as [done cur] eqn:Hg.
  simpl in *. rewrite filled_lines_snoc, Hdrawn, Hline, map_app, length_app. simpl.
  split; [done | lia].
Qed.

Lemma wrapLines_groups (measure : string -> Q) (W : Q) (text : string) :
  wrapLines measure W text = map spaced (wrapGroups measure W text).
Proof. unfold wrapLines. apply wrapText_groups. Qed.

Section Greedy.
Variable measure : string -> Q.
Variable W : Q.

Lemma breaks_forced_snoc (gs : list (list string)) (g : list string) (w : string) :
  breaks_forced measure W (gs ++ [g]) ->
  (W < measure (spaced g +:+ w +:+ " "))%Q ->
  breaks_forced measure W ((gs ++ [g]) ++ [[w]]).
Proof.
  intros H Hw i g' h Hg Hh.
  destruct (decide (S i < length (gs ++ [g]))%nat) as [Hlt|Hge].
  - rewrite lookup_app_l in Hg by lia. rewrite lookup_app_l in Hh by lia.
    by apply (H i).
  - rewrite lookup_app_r in Hh by lia.
    destruct (S i - length (gs ++ [g]))%nat as [|j] eqn:Hj; [|done].
    simplify_eq/=. rewrite length_app in Hge, Hj. simpl in *.
    assert (i = length gs) as -> by lia.
    rewrite lookup_app_l in Hg by (rewrite length_app; simpl; lia).
    rewrite lookup_app_r, Nat.sub_diag in Hg by lia. simplify_eq/=.
    by exists w, [].
Qed.

Lemma breaks_forced_grow (gs : list (list string)) (c : string)
    (cs : list string) (w : string) :
  breaks_forced measure W (gs ++ [c :: cs]) ->
  breaks_forced measure W (gs ++ [(c :: cs) ++ [w]]).
Proof.
  intros H i g h Hg Hh.
  destruct (decide (S i < length gs)%nat) as [Hlt|Hge].
  - rewrite lookup_app_l in Hg by lia. rewrite lookup_app_l in Hh by lia.
    apply (H i); by rewrite lookup_app_l by lia.
  - rewrite lookup_app_r in Hh by lia.
    destruct (S i - length gs)%nat as [|j] eqn:Hj; [|done].
    simplify_eq/=. assert (S i = length gs) as Hi by lia.
    rewrite lookup_app_l in Hg by lia.
    destruct (H i g (c :: cs)) as (w0 & rest & Heq & Hw0).
    + by rewrite lookup_app_l by lia.
    + rewrite lookup_app_r by lia. by rewrite Hj.
    + simplify_eq. by exists w0, (rest ++ [w]).
Qed.

Lemma prefixes_fit_snoc (cur : list string) (w : string) :
  prefixes_fit measure W cur ->
  (cur <> [] -> (measure (spaced cur +:+ w +:+ " ") <= W)%Q) ->
  prefixes_fit measure W (cur ++ [w]).
Proof.
  intros Hcur Hw k Hk. rewrite length_app in Hk. simpl in Hk.
  destruct (decide (k <= length cur)%nat) as [Hle|Hgt].
  - rewrite take_app_le by lia. apply Hcur. lia.
  - rewrite take_ge by (rewrite length_app; simpl; lia).
    rewrite spaced_snoc. apply Hw. intros ->. simpl in *. lia.
Qed.

Lemma group_loop_inv (words : list string) :
  forall (n : nat) (done : list (list string)) (cur : list string),
    n = length (concat done ++ cur) ->
    (n <> 0%nat -> cur <> []) ->
    Forall (fun g => g <> []) done ->
    Forall (prefixes_fit measure W) done ->
    prefixes_fit measure W cur ->
    breaks_forced measure W (done ++ [cur]) ->
    let r := group_loop measure W words n done cur in
    concat r.1 ++ r.2 = (concat done ++ cur) ++ words
    /\ Forall (fun g => g <> []) r.1
    /\ ((n + length words)%nat <> 0%nat -> r.2 <> [])
    /\ Forall (prefixes_fit measure W) r.1
    /\ prefixes_fit measure W r.2
    /\ breaks_forced measure W (r.1 ++ [r.2]).
Proof.
  induction words as [|w words IH];
    intros n done cur Hn Hcur0 Hne Hfit Hcur Hbr; simpl.
  - rewrite app_nil_r. repeat split; try done.
    intros Hn0. apply Hcur0. lia.
  - destruct (Qgt_bool _ _ && _) eqn:Hc.
    + apply andb_true_iff in Hc as [Hw Hpos].
      apply Qgt_bool_true in Hw. apply Nat.ltb_lt in Hpos.
      destruct (IH (S n) (done ++ [cur]) [w]) as (Hwords & H1 & H2 & H3 & H4 & H5).
      * rewrite concat_app, !length_app in *. simpl. rewrite app_nil_r. lia.
      * done.
      * apply Forall_app. split; [done|]. apply Forall_singleton. apply Hcur0. lia.
      * apply Forall_app. split; [done|]. by apply Forall_singleton.
      * intros k Hk. simpl in Hk. lia.
      * by apply breaks_forced_snoc.
      * split; [|repeat split; try done; intros _; apply H2; lia].
        rewrite Hwords, concat_app. simpl. rewrite app_nil_r.
        by rewrite <- !app_assoc.
    + assert (Hw : cur <> [] -> (measure (spaced cur +:+ w +:+ " ") <= W)%Q).
      { intros Hcur1. apply andb_false_iff in Hc as [Hw|Hpos].
        - by apply Qgt_bool_false.
        - apply Nat.ltb_ge in Hpos. subst n. destruct cur; [done|].
          rewrite length_app in Hpos. simpl in Hpos. lia. }
      destruct (IH (S n) done (cur ++ [w])) as (Hwords & H1 & H2 & H3 & H4 & H5).
      * rewrite !length_app in *. simpl. lia.
      * intros _. by destruct cur.
      * done.
      * done.
      * by apply prefixes_fit_snoc.
      * destruct cur as [|c cs].
        -- assert (n = 0%nat) as -> by (destruct n; [done|]; by destruct Hcur0).
           rewrite app_nil_r in Hn. destruct done as [|g done].
           ++ intros [|i] g h Hg Hh; simplify_eq/=.
           ++ apply Forall_cons in Hne as [Hg _]. destruct g; [done|].
              simpl in Hn. lia.
        -- by apply breaks_forced_grow.
      * split; [|repeat split; try done; intros _; apply H2; lia].
        rewrite Hwords. by rewrite <- !app_assoc.
Qed.

Lemma split_space_nonempty (s : string) : split_space s <> [].
Proof.
  destruct s as [|c s]; simpl; [done|].
  destruct (Ascii.eqb c " "); [done|]. by destruct (split_space s).
Qed.

(** What the loop leaves behind, on the words of the lines. *)
Lemma wrapGroups_spec (text : string) :
  let gs := wrapGroups measure W text in
  concat gs = split_space text
  /\ Forall (fun g => g <> []) gs
  /\ Forall (prefixes_fit measure W) gs
  /\ breaks_forced measure W gs.
Proof.
  unfold wrapGroups.
  assert (Hfit0 : prefixes_fit measure W []) by (intros k Hk; simpl in Hk; lia).
  assert (Hbr0 : breaks_forced measure W ([] ++ [[]]))
    by (intros [|i] g h Hg Hh; simplify_eq/=).
  destruct (group_loop_inv (split_space text) 0 [] [] eq_refl
              ltac:(done) ltac:(done) ltac:(done) Hfit0 Hbr0)
    as (Hwords & H1 & H2 & H3 & H4 & H5).
  - simpl in *. rewrite concat_app. simpl. rewrite app_nil_r.
    split; [done|]. split; [|split; [|done]].
    + apply Forall_app. split; [done|]. apply Forall_singleton, H2.
      pose proof (split_space_nonempty text). destruct (split_space text); simpl; [done|lia].
    + apply Forall_app. split; [done|]. by apply Forall_singleton.
Qed.
End Greedy.

Lemma spaced_elem (g : list string) (w : string) :
  w ∈ g -> exists a c, spaced g = a +:+ (w +:+ " ") +:+ c.
Proof.
  intros (l1 & l2 & ->)%list_elem_of_split.
  exists (spaced l1), (spaced l2).
  by rewrite spaced_app, spaced_cons, !str_app_assoc.
Qed.

Lemma mono10_monotone : monotone mono10.
Proof.
  intros a b c. unfold mono10. rewrite <- Zle_Qle, !str_length_app. lia.
Qed.

(** C5.  [wrapText] draws the words of the text ([text.split(' ')]) in
    order, each whole and followed by a space, grouped into lines, and returns
    the number of lines.  Words were added to a line only while the line with
    the word still measured at most [maxWidth]; a line was ended only because
    the next word would have exceeded [maxWidth], and that word starts the
    next line.  No word is ever split: under a measure for which a part is
    never wider than the whole, a word wider than [maxWidth] is alone on its
    line. *)
Theorem wrapText_greedy (measure : string -> Q) (text : string) (x y maxWidth lineHeight : Q) :
  exists gs : list (list string),
    filled_lines (wrapText measure text x y maxWidth lineHeight).1 = map spaced gs
    /\ (wrapText measure text x y maxWidth lineHeight).2 = length gs
    /\ concat gs = split_space text
    /\ Forall (fun g => g <> []) gs
    /\ Forall (prefixes_fit measure maxWidth) gs
    /\ breaks_forced measure maxWidth gs
    /\ (monotone measure ->
        forall g w, g ∈ gs -> w ∈ g -> (maxWidth < measure (w +:+ " "))%Q -> g = [w]).
Proof.
  exists (wrapGroups measure maxWidth text).
  destruct (wrapText_groups measure text x y maxWidth lineHeight) as [Hlines Hcount].
  destruct (wrapGroups_spec measure maxWidth text) as (Hwords & Hne & Hfit & Hbr).
  repeat split; try done.
  intros Hmono g w Hg Hw Hwide.
  rewrite Forall_forall in Hfit. specialize (Hfit g Hg).
  destruct g as [|w1 [|w2 g]].
  - by apply elem_of_nil in Hw.
  - by apply list_elem_of_singleton in Hw as ->.
  - exfalso. destruct (spaced_elem _ _ Hw) as (a & c & Hsp).
    specialize (Hfit (length (w1 :: w2 :: g)) ltac:(simpl; lia)).
    rewrite firstn_all, Hsp in Hfit.
    apply (Qlt_irrefl maxWidth).
    eapply Qlt_le_trans; [exact Hwide|]. eapply Qle_trans; [apply Hmono | exact Hfit].
Qed.

Lemma wrapText_greedy_witness :
  exists gs : list (list string),
    map spaced gs = ["aa bb "; "cccccccccccc "; "d e "]
    /\ forall g, g ∈ gs -> "cccccccccccc" ∈ g -> g = ["cccccccccccc"].
Proof.
  destruct (wrapText_greedy mono10 "aa bb cccccccccccc d e" 540 540 60 84)
    as (gs & Hlines & _ & _ & _ & _ & _ & Hwide).
  exists gs. split.
  - rewrite <- Hlines. vm_compute. reflexivity.
  - intros g Hg Hw. apply (Hwide mono10_monotone g _ Hg Hw). reflexivity.
Defined.

(** *** Re-wrapping *)

Lemma split_space_no_space (s : string) :
  Forall (fun w => no_space w = true) (split_space s).
Proof.
  induction s as [|c s IH]; simpl.
  - by apply Forall_singleton.
  - destruct (Ascii.eqb c " ") eqn:Hc.
    + by apply Forall_cons.
    + destruct (split_space s) as [|w ws]; simpl.
      * apply Forall_singleton. simpl. by rewrite Hc.
      * apply Forall_cons in IH as [Hw Hws]. apply Forall_cons. split; [|done].
        simpl. by rewrite Hc, Hw.
Qed.

Lemma split_space_word (w rest : string) :
  no_space w = true ->
  split_space (w +:+ " " +:+ rest) = w :: split_space rest.
Proof.
  induction w as [|c w IH]; intros Hw.
  - reflexivity.
  - simpl in Hw. apply andb_true_iff in Hw as [Hc Hw]. apply negb_true_iff in Hc.
    rewrite str_app_cons. simpl. rewrite Hc, IH by done. reflexivity.
Qed.

Lemma split_space_single (w : string) :
  no_space w = true -> split_space w = [w].
Proof.
  induction w as [|c w IH]; intros Hw; [done|].
  simpl in Hw. apply andb_true_iff in Hw as [Hc Hw]. apply negb_true_iff in Hc.
  simpl. by rewrite Hc, IH.
Qed.

Lemma split_join (g : list string) :
  g <> [] -> Forall (fun w => no_space w = true) g ->
  split_space (join_space g) = g.
Proof.
  induction g as [|w g IH]; intros Hne Hg; [done|].
  apply Forall_cons in Hg as [Hw Hg]. destruct g as [|w' g].
  - by apply split_space_single.
  - change (join_space (w :: w' :: g)) with (w +:+ " " +:+ join_space (w' :: g)).
    rewrite split_space_word by done. by rewrite IH.
Qed.

Lemma join_split (s : string) : join_space (split_space s) = s.
Proof.
  induction s as [|c s IH]; [done|]. simpl.
  destruct (Ascii.eqb_spec c " ") as [->|Hc].
  - destruct (split_space s) as [|w ws] eqn:Hs; [by destruct (split_space_nonempty s)|].
    change (join_space ("" :: w :: ws)) with (" " +:+ join_space (w :: ws)).
    by rewrite IH.
  - destruct (split_space s) as [|w ws] eqn:Hs; [by destruct (split_space_nonempty s)|].
    destruct ws as [|w' ws].
    + simpl in *. by rewrite IH.
    + change (join_space (String c w :: w' :: ws))
        with (String c (w +:+ " " +:+ join_space (w' :: ws))).
      by rewrite <- IH.
Qed.

Lemma chop_app (a b : string) : b <> "" -> chop (a +:+ b) = a +:+ chop b.
Proof.
  intros Hb. induction a as [|c a IH]; [done|].
  rewrite !str_app_cons. simpl. rewrite IH.
  destruct (a +:+ b) eqn:Hab; [|done].
  destruct a; [by rewrite str_app_nil_l in Hab | by rewrite str_app_cons in Hab].
Qed.

Lemma chop_spaced (g : list string) : g <> [] -> chop (spaced g) = join_space g.
Proof.
  induction g as [|w g IH]; intros Hne; [done|].
  rewrite spaced_cons. destruct g as [|w' g].
  - rewrite chop_app by done. simpl. by rewrite str_app_nil_r.
  - rewrite chop_app by done. rewrite chop_app by (by rewrite spaced_cons; destruct w').
    by rewrite IH.
Qed.

Lemma join_space_app (a b : list string) :
  a <> [] -> b <> [] -> join_space (a ++ b) = join_space a +:+ " " +:+ join_space b.
Proof.
  induction a as [|w a IH]; intros Ha Hb; [done|].
  destruct a as [|w' a].
  - destruct b; [done|]. reflexivity.
  - change (join_space ((w :: w' :: a) ++ b))
      with (w +:+ " " +:+ join_space ((w' :: a) ++ b)).
    rewrite IH by done.
    change (join_space (w :: w' :: a)) with (w +:+ " " +:+ join_space (w' :: a)).
    by rewrite !str_app_assoc.
Qed.

Lemma join_space_concat (gs : list (list string)) :
  Forall (fun g => g <> []) gs ->
  join_space (map join_space gs) = join_space (concat gs).
Proof.
  induction gs as [|g gs IH]; intros Hne; [done|].
  apply Forall_cons in Hne as [Hg Hgs]. destruct gs as [|g' gs].
  - simpl. by rewrite app_nil_r.
  - change (join_space (map join_space (g :: g' :: gs)))
      with (join_space g +:+ " " +:+ join_space (map join_space (g' :: gs))).
    rewrite IH by done.
    change (concat (g :: g' :: gs)) with (g ++ concat (g' :: gs)).
    rewrite (join_space_app g (concat (g' :: gs))); [done|done|].
    apply Forall_cons in Hgs as [Hg' _]. simpl. by destruct g'.
Qed.

Section Rewrap.
Variable measure : string -> Q.
Variable W : Q.

(** A run of words whose prefixes all fit stays on one line. *)
Lemma group_loop_fitting (ws : list string) :
  forall cur : list string,
    prefixes_fit measure W (cur ++ ws) ->
    group_loop measure W ws (length cur) [] cur = ([], cur ++ ws).
Proof.
  induction ws as [|w ws IH]; intros cur Hfit; simpl.
  - by rewrite app_nil_r.
  - assert (Hc : Qgt_bool (measure (spaced cur +:+ w +:+ " ")) W
                 && (0 <? length cur)%nat = false).
    { destruct cur as [|c cur]; [by rewrite andb_false_r|].
      apply andb_false_iff. left. apply Qgt_bool_false.
      rewrite <- spaced_snoc.
      specialize (Hfit (S (length (c :: cur)))).
      rewrite (cons_middle w), app_assoc in Hfit.
      rewrite take_app_length' in Hfit by (rewrite length_app; simpl; lia).
      apply Hfit. rewrite !length_app. simpl. lia. }
    rewrite Hc. specialize (IH (cur ++ [w])).
    rewrite length_app, <- app_assoc in IH. simpl in IH.
    rewrite Nat.add_1_r in IH. by apply IH.
Qed.

Lemma wrapLines_chop_spaced (g : list string) :
  g <> [] -> Forall (fun w => no_space w = true) g -> prefixes_fit measure W g ->
  wrapLines measure W (chop (spaced g)) = [spaced g].
Proof.
  intros Hne Hsp Hfit. rewrite wrapLines_groups, chop_spaced by done.
  unfold wrapGroups. rewrite split_join by done.
  pose proof (group_loop_fitting g [] Hfit) as Hloop. simpl in Hloop.
  by rewrite Hloop.
Qed.
End Rewrap.

(** C6 (as the code has it).  The lines [wrapText] draws end in the
    separator space.  With that space removed, wrapping a line again at the
    same width gives back exactly that line, so re-wrapping the whole sequence
    of lines reproduces it; and the lines joined by single spaces are the
    original text, which wraps to the same lines. *)
Theorem wrapText_rewrap_chopped (measure : string -> Q) (maxWidth : Q) (text : string) :
  (forall l : string, l ∈ wrapLines measure maxWidth text ->
     wrapLines measure maxWidth (chop l) = [l])
  /\ rewrap measure maxWidth (chop <$> wrapLines measure maxWidth text) =
     wrapLines measure maxWidth text
  /\ join_space (chop <$> wrapLines measure maxWidth text) = text.
Proof.
  destruct (wrapGroups_spec measure maxWidth text) as (Hwords & Hne & Hfit & _).
  assert (Hsp : Forall (fun g => Forall (fun w => no_space w = true) g)
                  (wrapGroups measure maxWidth text)).
  { pose proof (split_space_no_space text) as Hall. rewrite <- Hwords in Hall.
    by apply Forall_concat in Hall. }
  rewrite wrapLines_groups.
  set (gs := wrapGroups measure maxWidth text) in *.
  assert (Hline : forall g, g ∈ gs -> wrapLines measure maxWidth (chop (spaced g)) = [spaced g]).
  { intros g Hg. rewrite Forall_forall in Hne, Hfit, Hsp.
    apply wrapLines_chop_spaced; auto. }
  split; [|split].
  - intros l (g & -> & Hg)%list_elem_of_fmap. by apply Hline.
  - unfold rewrap. clear -Hline. induction gs as [|g gs IH]; [done|].
    simpl. rewrite Hline by apply list_elem_of_here.
    simpl. f_equal. apply IH. intros g' Hg'. apply Hline. by apply list_elem_of_further.
  - rewrite <- list_fmap_compose.
    rewrite (Forall_fmap_ext_1 (chop ∘ spaced) join_space gs).
    + rewrite join_space_concat by done. rewrite Hwords. apply join_split.
    + eapply Forall_impl; [exact Hne|]. intros g Hg. by apply chop_spaced.
Qed.

(** C6 (as stated) fails.  Given back to [wrapText] as drawn, the trailing
    space of a line is one more (empty) word, and it can overflow: the line
    "ab " of the text "ab" re-wraps to the two lines "ab " and " ". *)
Lemma wrapText_rewrap_not_idempotent :
  rewrap mono10 30 (wrapLines mono10 30 "ab") <> wrapLines mono10 30 "ab".
Proof. vm_compute. discriminate. Qed.

Example rewrap_ex1 :
  wrapLines mono10 30 "ab" = ["ab "]
  /\ rewrap mono10 30 ["ab "] = ["ab "; " "]
  /\ rewrap mono10 30 (chop <$> ["ab "]) = ["ab "].
Proof. vm_compute. repeat split. Qed.

(** ** Batch Exporter *)

Lemma to_int_not_nil (n : Z) :
  Z.to_int n <> Decimal.Pos Decimal.Nil /\ Z.to_int n <> Decimal.Neg Decimal.Nil.
Proof.
  destruct n as [|p|p]; simpl; split; try discriminate;
    intros [= H]; by apply DecimalPos.Unsigned.to_uint_nonnil in H.
Qed.

Lemma number_to_string_inj (a b : Z) :
  number_to_string a = number_to_string b -> a = b.
Proof.
  unfold number_to_string. intros H.
  apply (f_equal NilZero.int_of_string) in H.
  destruct (to_int_not_nil a), (to_int_not_nil b).
  rewrite !NilZero.isi in H by done.
  apply DecimalZ.to_int_inj. congruence.
Qed.

Lemma str_app_inj_r (a b c : string) : a +:+ c = b +:+ c -> a = b.
Proof.
  revert b. induction a as [|ch a IH]; intros [|ch' b] H.
  - done.
  - apply (f_equal String.length) in H.
    rewrite !str_length_app in H. simpl in H. lia.
  - apply (f_equal String.length) in H.
    rewrite !str_length_app in H. simpl in H. lia.
  - rewrite !str_app_cons in H. injection H as -> H. f_equal. by apply IH.
Qed.

Lemma slideFileName_inj (s1 s2 : Slide) :
  slideFileName s1 = slideFileName s2 -> ordem s1 = ordem s2.
Proof.
  unfold slideFileName. intros H%String.app_inj%str_app_inj_r.
  by apply number_to_string_inj.
Qed.

Lemma zip_file_fresh (name : string) (data : Blob) (files : list (string * Blob)) :
  name ∉ files.*1 -> zip_file name data files = files ++ [(name, data)].
Proof.
  induction files as [|[n d] files IH]; [done|].
  rewrite fmap_cons, not_elem_of_cons. simpl. intros [Hne Hfiles].
  destruct (String.eqb_spec n name) as [->|_]; [done|]. by rewrite IH.
Qed.

Lemma zip_file_names (name n : string) (data : Blob) (files : list (string * Blob)) :
  n ∈ (zip_file name data files).*1 <-> n = name \/ n ∈ files.*1.
Proof.
  induction files as [|[n' d] files IH]; simpl.
  - rewrite list_elem_of_singleton, elem_of_nil. tauto.
  - destruct (String.eqb_spec n' name) as [->|Hne]; simpl.
    + rewrite !elem_of_cons. tauto.
    + rewrite !elem_of_cons, IH. tauto.
Qed.

Section Exporter.
Variable render : Slide -> option HTMLImageElement -> option Blob.
Variable imageUrls : gmap Z string.
Variable decodes : string -> bool.

Let add (zip : list (string * Blob)) (slide : Slide) : list (string * Blob) :=
  match render slide (slideBackground imageUrls decodes slide) with
  | Some blob => zip_file (slideFileName slide) blob zip
  | None => zip
  end.

Lemma zip_loop_names (slides : list Slide) :
  forall (acc : list (string * Blob)) (n : string),
    n ∈ (foldl add acc slides).*1 <->
    n ∈ acc.*1 \/
    exists slide, slide ∈ slides
      /\ is_Some (render slide (slideBackground imageUrls decodes slide))
      /\ slideFileName slide = n.
Proof.
  induction slides as [|s slides IH]; intros acc n; simpl.
  - split; [by left|]. intros [H|(s & Hs & _)]; [done|]. by apply elem_of_nil in Hs.
  - rewrite IH. unfold add.
    destruct (render s (slideBackground imageUrls decodes s)) as [blob|] eqn:Hr.
    + rewrite zip_file_names. split.
      * intros [[->|H]|(s' & Hs' & Hok & Hn)].
        -- right. exists s. rewrite Hr. split; [apply list_elem_of_here|]. by split.
        -- by left.
        -- right. exists s'. split; [by apply list_elem_of_further|]. by split.
      * intros [H|(s' & Hs' & Hok & Hn)]; [left; by right|].
        apply elem_of_cons in Hs' as [->|Hs'].
        -- left. by left.
        -- right. by exists s'.
    + split.
      * intros [H|(s' & Hs' & Hok & Hn)]; [by left|].
        right. exists s'. split; [by apply list_elem_of_further|]. by split.
      * intros [H|(s' & Hs' & Hok & Hn)]; [by left|].
        apply elem_of_cons in Hs' as [->|Hs'].
        -- rewrite Hr in Hok. by destruct Hok.
        -- right. by exists s'.
Qed.

Lemma zip_loop_distinct (slides : list Slide) :
  forall acc : list (string * Blob),
    NoDup (ordem <$> slides) ->
    (forall slide, slide ∈ slides -> slideFileName slide ∉ acc.*1) ->
    foldl add acc slides = acc ++ renderedEntries render imageUrls decodes slides.
Proof.
  induction slides as [|s slides IH]; intros acc Hnd Hfresh; simpl.
  - by rewrite app_nil_r.
  - rewrite fmap_cons in Hnd. apply NoDup_cons in Hnd as [Hs Hnd].
    unfold renderedEntries. simpl. fold (renderedEntries render imageUrls decodes slides).
    unfold add at 2.
    destruct (render s (slideBackground imageUrls decodes s)) as [blob|] eqn:Hr; simpl.
    + rewrite zip_file_fresh by (apply Hfresh, list_elem_of_here).
      rewrite IH; [by rewrite <- app_assoc | done |].
      intros s' Hs'. rewrite fmap_app, elem_of_app. simpl.
      rewrite list_elem_of_singleton. intros [Hin|Heq].
      * by apply (Hfresh s'); [apply list_elem_of_further|].
      * apply slideFileName_inj in Heq. apply Hs. rewrite <- Heq.
        by apply list_elem_of_fmap_2.
    + apply IH; [done|]. intros s' Hs'. by apply Hfresh, list_elem_of_further.
Qed.

Lemma zipSlides_names (slides : list Slide) (n : string) :
  n ∈ (zipSlides render imageUrls decodes slides).*1 <->
  exists slide, slide ∈ slides
    /\ is_Some (render slide (slideBackground imageUrls decodes slide))
    /\ slideFileName slide = n.
Proof.
  unfold zipSlides. fold add. rewrite zip_loop_names. simpl.
  split; [intros [H|H]; [by apply elem_of_nil in H|done] | by right].
Qed.

Lemma zipSlides_distinct (slides : list Slide) :
  NoDup (ordem <$> slides) ->
  zipSlides render imageUrls decodes slides =
    renderedEntries render imageUrls decodes slides.
Proof.
  intros Hnd. unfold zipSlides. fold add.
  rewrite zip_loop_distinct; [done|done|]. intros s _. simpl. apply not_elem_of_nil.
Qed.

Lemma renderedEntries_all (slides : list Slide) :
  (forall slide, slide ∈ slides ->
     is_Some (render slide (slideBackground imageUrls decodes slide))) ->
  (renderedEntries render imageUrls decodes slides).*1 = slideFileName <$> slides.
Proof.
  induction slides as [|s slides IH]; intros Hall; [done|].
  destruct (Hall s (list_elem_of_here _ _)) as [blob Hr].
  unfold renderedEntries. simpl. rewrite Hr. simpl.
  f_equal. apply IH. intros s' Hs'. by apply Hall, list_elem_of_further.
Qed.
End Exporter.

Example exportEntries_ex1 :
  exportEntries sampleBrowser sampleTypography (fun _ => true)
    (sampleCarousel None [sampleSlide 1 capa "Ola mundo"; sampleSlide 2 cta "Siga"])
    pt ∅ =
  [("slide_1.png", String.list_byte_of_string "Ola mundo  ");
   ("slide_2.png", String.list_byte_of_string "Siga  ")].
Proof. vm_compute. reflexivity. Qed.

(** C1 (as the code has it).  The loop visits the slides in the order of
    the [slides] array and does not sort them.  When every slide renders and
    the order values are the distinct values 1..N, the archive holds exactly
    N entries, [slide_<ordem>.png] for each slide in storage order: the names
    [slide_1.png] .. [slide_N.png] each once, and in ascending order when the
    array is stored in ascending order. *)
Theorem export_entries_in_storage_order
    (B : Browser) (typography : Language -> list FontOption) (decodes : string -> bool)
    (carousel : Carousel) (language : Language) (imageUrls : gmap Z string) (N : nat) :
  let entries := exportEntries B typography decodes carousel language imageUrls in
  let name (k : Z) := "slide_" +:+ number_to_string k +:+ ".png" in
  (forall slide, slide ∈ slides carousel ->
     is_Some (renderSlideToBlob B typography slide carousel language
                (slideBackground imageUrls decodes slide))) ->
  ordem <$> slides carousel ≡ₚ seqZ 1 (Z.of_nat N) ->
  entries.*1 = slideFileName <$> slides carousel
  /\ length entries = N
  /\ entries.*1 ≡ₚ name <$> seqZ 1 (Z.of_nat N)
  /\ (ordem <$> slides carousel = seqZ 1 (Z.of_nat N) <->
      entries.*1 = name <$> seqZ 1 (Z.of_nat N)).
Proof.
  intros entries name Hall Hperm.
  assert (Hnd : NoDup (ordem <$> slides carousel))
    by (rewrite Hperm; apply NoDup_seqZ).
  assert (Hnames : entries.*1 = slideFileName <$> slides carousel).
  { unfold entries, exportEntries. rewrite zipSlides_distinct by done.
    by apply renderedEntries_all. }
  assert (Hmap : slideFileName <$> slides carousel = name <$> (ordem <$> slides carousel))
    by (by rewrite <- list_fmap_compose).
  split; [exact Hnames|]. split; [|split].
  - transitivity (length (entries.*1)); [by rewrite length_fmap|].
    rewrite Hnames, length_fmap, <- (length_fmap ordem), Hperm, length_seqZ. lia.
  - by rewrite Hnames, Hmap, Hperm.
  - rewrite Hnames, Hmap. split; [by intros ->|].
    apply list_fmap_eq_inj. intros k1 k2 Hk. unfold name in Hk.
    apply String.app_inj, str_app_inj_r in Hk. by apply number_to_string_inj.
Qed.

Lemma sampleBrowser_renders (carousel : Carousel) (slide : Slide) (bg : option HTMLImageElement) :
  frase slide = "A" \/ frase slide = "B" ->
  tipografia carousel = None ->
  is_Some (renderSlideToBlob sampleBrowser sampleTypography slide carousel pt bg).
Proof.
  destruct slide as [o k f il pr], carousel as [i n c e pal ty ct sl]; simpl.
  intros [->| ->] ->; destruct k, bg; vm_compute; eauto.
Qed.

Lemma export_entries_in_storage_order_witness :
  (exportEntries sampleBrowser sampleTypography (fun _ => true)
     (sampleCarousel None [sampleSlide 2 conteudo "B"; sampleSlide 1 capa "A"]) pt ∅).*1
  = ["slide_2.png"; "slide_1.png"].
Proof.
  apply (export_entries_in_storage_order sampleBrowser sampleTypography (fun _ => true)
           (sampleCarousel None [sampleSlide 2 conteudo "B"; sampleSlide 1 capa "A"])
           pt ∅ 2).
  - intros slide Hin. apply sampleBrowser_renders; [|reflexivity].
    simpl in Hin. apply elem_of_cons in Hin as [->|Hin]; [by right|].
    apply list_elem_of_singleton in Hin as ->. by left.
  - apply Permutation_swap.
Defined.

(** C1 (as stated) fails: with the slides stored as order 2 then order 1, the
    entries are added as [slide_2.png] then [slide_1.png], not in ascending
    order. *)
Lemma export_entries_not_ascending :
  ~ (forall (carousel : Carousel) (N : nat),
       ordem <$> slides carousel ≡ₚ seqZ 1 (Z.of_nat N) ->
       (exportEntries sampleBrowser sampleTypography (fun _ => true) carousel pt ∅).*1
       = (fun k => "slide_" +:+ number_to_string k +:+ ".png") <$> seqZ 1 (Z.of_nat N)).
Proof.
  intros H.
  specialize (H (sampleCarousel None [sampleSlide 2 conteudo "B"; sampleSlide 1 capa "A"])
                2%nat (Permutation_swap _ _ _)).
  vm_compute in H. discriminate H.
Qed.

(** C9.  A slide whose rendering gives no blob (no 2D context, or an
    encoder that yields [null]) is skipped and the loop goes on: every slide
    that does render has its [slide_<ordem>.png] in the archive, nothing else
    is in it, with distinct order values the entries are exactly the rendered
    slides in storage order, and the archive is still packed and saved under
    [<id>.zip]. *)
Theorem export_skips_failed_slides
    (B : Browser) (typography : Language -> list FontOption) (decodes : string -> bool)
    (generateAsync : list (string * Blob) -> option Blob)
    (carousel : Carousel) (language : Language) (imageUrls : gmap Z string) :
  let render slide bgImage :=
    renderSlideToBlob B typography slide carousel language bgImage in
  let rendered slide := render slide (slideBackground imageUrls decodes slide) in
  let entries := exportEntries B typography decodes carousel language imageUrls in
  (forall slide, slide ∈ slides carousel -> is_Some (rendered slide) ->
     slideFileName slide ∈ entries.*1)
  /\ (forall n, n ∈ entries.*1 ->
        exists slide, slide ∈ slides carousel /\ is_Some (rendered slide)
                      /\ slideFileName slide = n)
  /\ (NoDup (ordem <$> slides carousel) ->
        entries = omap (fun slide => pair (slideFileName slide) <$> rendered slide)
                    (slides carousel))
  /\ (getContext2d B = false -> entries = [])
  /\ (forall content, generateAsync entries = Some content ->
        handleDownloadZip B typography decodes generateAsync carousel language imageUrls
        = Saved content (id carousel +:+ ".zip")).
Proof.
  intros render rendered entries. repeat split.
  - intros slide Hin Hok. apply zipSlides_names. by exists slide.
  - intros n Hn. by apply zipSlides_names in Hn.
  - intros Hnd. unfold entries, exportEntries. by rewrite zipSlides_distinct.
  - intros Hctx. unfold entries, exportEntries, zipSlides.
    induction (slides carousel) as [|s l IH] using rev_ind; [done|].
    rewrite foldl_app. simpl. rewrite IH.
    unfold renderSlideToBlob. by rewrite Hctx.
  - intros content Hgen. unfold handleDownloadZip. fold entries. by rewrite Hgen.
Qed.

Lemma export_skips_failed_slides_witness :
  exportEntries sampleBrowser sampleTypography (fun _ => true)
    (sampleCarousel None
       [sampleSlide 1 capa "A"; sampleSlide 2 conteudo "FAIL"; sampleSlide 3 cta "B"])
    pt ∅
  = [("slide_1.png", String.list_byte_of_string "A  ");
     ("slide_3.png", String.list_byte_of_string "B  ")].
Proof.
  destruct (export_skips_failed_slides sampleBrowser sampleTypography (fun _ => true)
              (fun _ => None)
              (sampleCarousel None
                 [sampleSlide 1 capa "A"; sampleSlide 2 conteudo "FAIL"; sampleSlide 3 cta "B"])
              pt ∅) as (_ & _ & Hdistinct & _).
  rewrite Hdistinct.
  - vm_compute. reflexivity.
  - apply (bool_decide_unpack _). vm_compute. exact I.
Defined.

(** ** Carousel Image Orchestrator *)

Section CollectUrls.
Variable slides : list Slide.

Let put (urls : gmap Z string) (p : nat * option string) : gmap Z string :=
  let '(index, url) := p in
  match truthy url, slides !! index with
  | Some u, Some slide => <[ordem slide := u]> urls
  | _, _ => urls
  end.

(** [p] writes [u] under [k]. *)
Let writes (p : nat * option string) (k : Z) (u : string) : Prop :=
  truthy p.2 = Some u /\ exists slide, slides !! p.1 = Some slide /\ ordem slide = k.

Lemma collectUrls_foldl (results : list (option string)) :
  collectUrls slides results = foldl put ∅ (imap pair results).
Proof.
  reflexivity.
Qed.

Lemma put_lookup (urls : gmap Z string) (p : nat * option string) (k : Z) (u : string) :
  put urls p !! k = Some u -> urls !! k = Some u \/ writes p k u.
Proof.
  unfold put, writes. destruct p as [index url]. simpl.
  destruct (truthy url) as [u'|]; [|by left].
  destruct (slides !! index) as [slide|]; [|by left].
  destruct (decide (ordem slide = k)) as [<-|Hne].
  - rewrite lookup_insert_eq. intros [= ->]. right. split; [done|]. by exists slide.
  - rewrite lookup_insert_ne by done. by left.
Qed.

Lemma foldl_put_lookup (l : list (nat * option string)) :
  forall (urls : gmap Z string) (k : Z) (u : string),
    foldl put urls l !! k = Some u ->
    urls !! k = Some u \/ exists p, p ∈ l /\ writes p k u.
Proof.
  induction l as [|p l IH]; intros urls k u H; simpl in H; [by left|].
  apply IH in H as [H|(q & Hq & Hw)].
  - apply put_lookup in H as [H|H]; [by left|].
    right. exists p. split; [apply list_elem_of_here|done].
  - right. exists q. split; [by apply list_elem_of_further|done].
Qed.

Lemma foldl_put_keep (l : list (nat * option string)) (k : Z) (u : string) :
  (forall p u', p ∈ l -> writes p k u' -> u' = u) ->
  forall urls : gmap Z string,
    urls !! k = Some u -> foldl put urls l !! k = Some u.
Proof.
  induction l as [|p l IH]; intros Hsame urls H; simpl; [done|].
  apply IH; [intros q u' Hq; apply Hsame; by apply list_elem_of_further|].
  unfold put. destruct p as [index url].
  destruct (truthy url) as [u'|] eqn:Hu; [|done].
  destruct (slides !! index) as [slide|] eqn:Hs; [|done].
  destruct (decide (ordem slide = k)) as [Hk|Hne].
  - rewrite <- Hk, lookup_insert_eq. f_equal.
    apply (Hsame (index, url) u'); [apply list_elem_of_here|].
    split; [done|]. by exists slide.
  - by rewrite lookup_insert_ne.
Qed.

Lemma foldl_put_written (l : list (nat * option string)) (k : Z) (u : string) :
  (forall p u', p ∈ l -> writes p k u' -> u' = u) ->
  (exists p, p ∈ l /\ writes p k u) ->
  forall urls : gmap Z string, foldl put urls l !! k = Some u.
Proof.
  induction l as [|p l IH]; intros Hsame (q & Hq & Hw) urls.
  - by apply elem_of_nil in Hq.
  - simpl. apply elem_of_cons in Hq as [->|Hq].
    + apply foldl_put_keep;
        [intros q u' Hq; apply Hsame; by apply list_elem_of_further|].
      destruct Hw as (Hu & slide & Hs & Hk). unfold put. destruct p as [index url].
      simpl in Hu, Hs. rewrite Hu, Hs, <- Hk.
      apply lookup_insert_eq.
    + apply IH; [intros q' u' Hq'; apply Hsame; by apply list_elem_of_further|].
      by exists q.
Qed.

(** An entry is the truthy result of a slide with that order. *)
Lemma collectUrls_only (results : list (option string)) (k : Z) (u : string) :
  collectUrls slides results !! k = Some u ->
  exists i slide, slides !! i = Some slide /\ ordem slide = k
                  /\ results !! i = Some (Some u) /\ u <> "".
Proof.
  rewrite collectUrls_foldl. intros H.
  apply foldl_put_lookup in H as [H|([i url] & Hp & Hu & slide & Hs & Hk)];
    [by rewrite lookup_empty in H|].
  simpl in *. apply elem_of_lookup_imap in Hp as (j & y & [= -> ->] & Hj).
  exists j, slide. split; [done|]. split; [done|].
  unfold truthy in Hu. destruct y as [v|]; [|done].
  destruct (String.eqb_spec v "") as [->|Hv]; [done|]. by simplify_eq.
Qed.

(** With distinct orders, the entry of a slide is its own result. *)
Lemma collectUrls_own (results : list (option string)) (i : nat) (slide : Slide) :
  NoDup (ordem <$> slides) ->
  slides !! i = Some slide ->
  collectUrls slides results !! ordem slide = results !! i ≫= truthy.
Proof.
  intros Hnd Hs.
  assert (Hidx : forall j slide', slides !! j = Some slide' ->
                   ordem slide' = ordem slide -> j = i).
  { intros j slide' Hj Heq. eapply NoDup_lookup; [exact Hnd| |].
    - by rewrite list_lookup_fmap, Hj.
    - rewrite list_lookup_fmap, Hs. simpl. by rewrite Heq. }
  destruct (results !! i ≫= truthy) as [u|] eqn:Hu.
  - rewrite collectUrls_foldl.
    destruct (results !! i) as [url|] eqn:Hr; [|done]. simpl in Hu.
    apply foldl_put_written.
    + intros [j url'] u' Hp (Hu' & slide' & Hs' & Hk). simpl in *.
      apply elem_of_lookup_imap in Hp as (j' & y & [= -> ->] & Hj).
      assert (j' = i) as -> by eauto. congruence.
    + exists (i, url). split; [|split; [done|by exists slide]].
      apply elem_of_lookup_imap. by exists i, url.
  - destruct (collectUrls slides results !! ordem slide) as [u|] eqn:Hc; [|done].
    apply collectUrls_only in Hc as (j & slide' & Hs' & Hk & Hr & Hne).
    assert (j = i) as -> by eauto.
    rewrite Hr in Hu. simpl in Hu. by destruct (String.eqb_spec u "").
Qed.
End CollectUrls.

Lemma truthy_some (u : string) : u <> "" -> truthy (Some u) = Some u.
Proof. intros Hu. simpl. by destruct (String.eqb_spec u ""). Qed.


Lemma settled_iff (b : Batch) :
  settled b = true <-> forall j, slots b !! j <> Some None.
Proof.
  unfold settled. induction (slots b) as [|s sl IH]; simpl.
  - split; [by intros _ j | done].
  - rewrite andb_true_iff, IH, bool_decide_eq_true. split.
    + intros [[x ->] Hsl] [|j]; simpl; [done | apply Hsl].
    + intros H. split.
      * destruct s as [x|]; [by exists x | by destruct (H 0%nat)].
      * intros j. apply (H (S j)).
Qed.

Lemma settled_false (b : Batch) (j : nat) :
  slots b !! j = Some None -> settled b = false.
Proof.
  intros Hj. destruct (settled b) eqn:Hs; [|done].
  rewrite settled_iff in Hs. by destruct (Hs j).
Qed.

(** The promise that resolves is the last one pending: [Promise.all]
    resolves and [fetchImages] resumes. *)
Lemma handle_resolve_last (st : PreviewState) (b i : nat) (r : option string)
    (batch : Batch) :
  batches st !! b = Some batch ->
  slots batch !! i = Some None ->
  (forall j, j <> i -> slots batch !! j <> Some None) ->
  handle st (Resolved b i r) =
    {| carousel := carousel st;
       generation := generation st;
       imageUrls := collectUrls (slides (subject batch))
                      (results_of (resolve_slot batch i r));
       isLoadingImages := false;
       batches := <[b := resolve_slot batch i r]> (batches st);
       requested := requested st |}.
Proof.
  intros Hb Hi Hothers. simpl. rewrite Hb, Hi.
  fold (resolve_slot batch i r).
  assert (Hs : settled (resolve_slot batch i r) = true).
  { apply settled_iff. intros j. simpl. destruct (decide (j = i)) as [->|Hne].
    - rewrite list_lookup_insert_eq by (by apply lookup_lt_Some in Hi). done.
    - rewrite list_lookup_insert_ne by done. by apply Hothers. }
  by rewrite Hs.
Qed.

(** Another promise of the batch is still pending: only the slot changes. *)
Lemma handle_resolve_more (st : PreviewState) (b i j : nat) (r : option string)
    (batch : Batch) :
  batches st !! b = Some batch ->
  slots batch !! i = Some None ->
  j <> i -> slots batch !! j = Some None ->
  handle st (Resolved b i r) =
    {| carousel := carousel st;
       generation := generation st;
       imageUrls := imageUrls st;
       isLoadingImages := isLoadingImages st;
       batches := <[b := resolve_slot batch i r]> (batches st);
       requested := requested st |}.
Proof.
  intros Hb Hi Hne Hj. simpl. rewrite Hb, Hi.
  fold (resolve_slot batch i r).
  rewrite (settled_false (resolve_slot batch i r) j); [done|].
  simpl. by rewrite list_lookup_insert_ne.
Qed.






Lemma pending_lookup {A} (l : list A) (i : nat) :
  map (fun _ => @None (option string)) l !! i = Some None <-> (i < length l)%nat.
Proof.
  revert i. induction l as [|x l IH]; intros [|i]; simpl; try (split; [done|lia]).
  - split; [lia|done].
  - rewrite IH. lia.
Qed.











Example mount_ex1 :
  requested (mount photoB) = ["imagem B"; "imagem C"]
  /\ isLoadingImages (mount photoB) = true
  /\ imageUrls (run (mount photoB) [Resolved 0 1 (Some "data:C"); Resolved 0 0 None])
     = {[2 := "data:C"]}.
Proof. vm_compute. repeat split. Qed.




(** C2 (as the code has it).  The continuation of [fetchImages] makes no
    identity check.  When the last pending request of a batch resolves, the
    image map becomes the map of that batch's results, keyed by the orders of
    the carousel the batch was started for, and the loading flag is cleared,
    whether or not the carousel has changed since the batch was started. *)
Theorem completion_applies_without_identity_check
    (st : PreviewState) (b i : nat) (r : option string) (batch : Batch) :
  batches st !! b = Some batch ->
  slots batch !! i = Some None ->
  (forall j, j <> i -> slots batch !! j <> Some None) ->
  let st' := handle st (Resolved b i r) in
  imageUrls st' =
    collectUrls (slides (subject batch)) (results_of (resolve_slot batch i r))
  /\ isLoadingImages st' = false
  /\ carousel st' = carousel st
  /\ generation st' = generation st.
Proof.
  intros Hb Hi Hothers st'. subst st'.
  by rewrite (handle_resolve_last st b i r batch).
Qed.

Lemma completion_applies_without_identity_check_witness :
  let st := run (mount photoA) [CarouselChanged photoB] in
  let batch := {| subject := photoA; started_at := 0; slots := [None] |} in
  stale st batch
  /\ carousel (handle st (Resolved 0 0 (Some "data:A"))) = photoB
  /\ imageUrls (handle st (Resolved 0 0 (Some "data:A"))) = {[1 := "data:A"]}.
Proof.
  intros st batch. split; [by vm_compute|].
  destruct (completion_applies_without_identity_check st 0 0 (Some "data:A") batch)
    as (Hmap & _ & Hcar & _).
  - reflexivity.
  - reflexivity.
  - intros [|j] Hj; [done|]. simpl. by rewrite lookup_nil.
  - split; [by rewrite Hcar|]. rewrite Hmap. reflexivity.
Defined.

(** C2 (as stated) fails: the results of a stale batch are applied.  Carousel
    A is replaced by B while A's request is in flight; B's own batch completes;
    then A's request resolves and the map of B's preview becomes A's. *)
Lemma stale_batch_results_are_applied :
  ~ (forall (c : Carousel) (evs : list Event) (b i : nat) (r : option string)
            (batch : Batch),
       let st := run (mount c) evs in
       batches st !! b = Some batch -> stale st batch ->
       imageUrls (handle st (Resolved b i r)) = imageUrls st).
Proof.
  intros H.
  specialize (H photoA
                [CarouselChanged photoB; Resolved 1 0 (Some "data:B"); Resolved 1 1 None]
                0%nat 0%nat (Some "data:A")
                {| subject := photoA; started_at := 0; slots := [None] |}
                eq_refl ltac:(by vm_compute)).
  apply (f_equal (fun m => m !! 1)) in H. vm_compute in H. discriminate H.
Qed.

(** ** Slide Rasterizer: the canvas *)

(** The canvas is always 1080 by 1080, whatever the text and the background. *)
Lemma renderSlideCanvas_size (B : Browser) (typography : Language -> list FontOption)
    (slide : Slide) (carousel : Carousel) (language : Language)
    (bgImage : option HTMLImageElement) :
  width (renderSlideCanvas B typography slide carousel language bgImage) = 1080
  /\ height (renderSlideCanvas B typography slide carousel language bgImage) = 1080.
Proof. done. Qed.

(** Without a 2D context there is no blob. *)
Lemma renderSlideToBlob_no_context (B : Browser) (typography : Language -> list FontOption)
    (slide : Slide) (carousel : Carousel) (language : Language)
    (bgImage : option HTMLImageElement) :
  getContext2d B = false ->
  renderSlideToBlob B typography slide carousel language bgImage = None.
Proof. intros H. unfold renderSlideToBlob. by rewrite H. Qed.

Example renderSlideCanvas_ex1 :
  let c := renderSlideCanvas sampleBrowser sampleTypography
             (sampleSlide 1 capa "Hello World") (sampleCarousel None []) pt None in
  filled_lines (ops c) = ["Hello "; "World "]
  /\ head (ops c) = Some (SetFillStyle (Solid "#F3EAD3"))
  /\ (fitFont sampleBrowser defaultFont (sampleSlide 1 capa "Hello World")).1 = 90.
Proof. vm_compute. repeat split. Qed.

(** * Further properties *)

(** ** Style Resolver *)

Lemma prefix_spec (p s : string) :
  String.prefix p s = true <-> exists b, s = p +:+ b.
Proof.
  revert s. induction p as [|c p IH]; intros s.
  - split; [intros _; by exists s | intros _; by destruct s].
  - destruct s as [|c' s]; simpl; [split; [done | by intros [b Hb]]|].
    destruct (Ascii.ascii_dec c c') as [->|Hne].
    + rewrite IH. split; intros [b Hb]; exists b.
      * by rewrite str_app_cons, <- Hb.
      * rewrite str_app_cons in Hb. by injection Hb.
    + split; [done|]. intros [b Hb]. rewrite str_app_cons in Hb.
      injection Hb as Hc _. by destruct Hne.
Qed.

(** [s.includes(needle)] holds exactly when [needle] occurs somewhere
    in [s]. *)
Lemma includes_spec (s needle : string) :
  includes s needle = true <-> exists a b, s = a +:+ needle +:+ b.
Proof.
  induction s as [|c s IH].
  - change (includes "" needle) with (String.prefix needle "" || false).
    rewrite orb_false_r, prefix_spec. split.
    + intros [b Hb]. by exists "", b.
    + intros (a & b & Hab). destruct a as [|c a]; [by exists b|].
      by rewrite str_app_cons in Hab.
  - change (includes (String c s) needle)
      with (String.prefix needle (String c s) || includes s needle).
    rewrite orb_true_iff, prefix_spec, IH. split.
    + intros [[b Hb]|(a & b & Hab)].
      * by exists "", b.
      * exists (String c a), b. by rewrite str_app_cons, <- Hab.
    + intros (a & b & Hab). destruct a as [|c' a].
      * left. by exists b.
      * right. rewrite str_app_cons in Hab. injection Hab as _ Hab. by exists a, b.
Qed.

Lemma find_value_first (l1 l2 : list FontOption) (f : FontOption) (token : string) :
  opt_value f = token -> token ∉ opt_value <$> l1 ->
  List.find (fun g => String.eqb (opt_value g) token) (l1 ++ f :: l2) = Some f.
Proof.
  intros Hf. induction l1 as [|g l1 IH].
  - intros _. simpl. by rewrite Hf, String.eqb_refl.
  - rewrite fmap_cons, not_elem_of_cons. intros [Hg Hl1]. simpl.
    destruct (String.eqb_spec (opt_value g) token) as [Heq|_]; [by destruct Hg|].
    by apply IH.
Qed.

(** X1.  A typography token that is a value of the language's catalog
    resolves to the family of the first entry with that value, always with
    weight 700, and to upper case exactly when the token itself contains one of
    the markers "Caixa alta", "Uppercase", "Mayúsculas", whatever the
    language. *)
Theorem getFontDetails_found (typography : Language -> list FontOption)
    (lang : Language) (token : string) (l1 l2 : list FontOption) (f : FontOption) :
  typography lang = l1 ++ f :: l2 ->
  opt_value f = token ->
  token ∉ opt_value <$> l1 ->
  getFontDetails typography token lang =
    {| fontFamily := opt_fontFamily f;
       textTransform := if uppercaseMarker token then uppercase else none;
       fontWeight := "700" |}.
Proof.
  intros Hcat Hf Hfirst. unfold getFontDetails.
  rewrite Hcat, (find_value_first l1 l2 f token) by done.
  rewrite Hf. unfold uppercaseMarker. by destruct (_ || _).
Qed.

Lemma getFontDetails_found_witness :
  getFontDetails sampleTypography "Caixa alta impactante" pt =
    {| fontFamily := "'Anton', sans-serif"; textTransform := uppercase;
       fontWeight := "700" |}.
Proof.
  apply (getFontDetails_found sampleTypography pt "Caixa alta impactante"
           [ {| opt_name := "Moderna"; opt_value := "Moderna sem serifa";
                opt_fontFamily := "'Inter', sans-serif" |} ] []
           {| opt_name := "Caixa alta"; opt_value := "Caixa alta impactante";
              opt_fontFamily := "'Anton', sans-serif" |}).
  - reflexivity.
  - reflexivity.
  - apply (bool_decide_unpack _). vm_compute. exact I.
Defined.

(** X2.  Whatever the token and the language, the resolved weight is 700,
    and the text is drawn in upper case exactly when the token is a value of
    the language's catalog and contains an upper-case marker: a token outside
    the catalog is never upper-cased, even if it says "Uppercase". *)
Theorem getFontDetails_uppercase_iff (typography : Language -> list FontOption)
    (lang : Language) (token : string) :
  fontWeight (getFontDetails typography token lang) = "700"
  /\ (textTransform (getFontDetails typography token lang) = uppercase <->
      token ∈ opt_value <$> typography lang /\ uppercaseMarker token = true).
Proof.
  unfold getFontDetails.
  destruct (List.find _ (typography lang)) as [f|] eqn:Hfind.
  - apply find_some in Hfind as [Hin Heq]. apply String.eqb_eq in Heq.
    assert (Hmem : token ∈ opt_value <$> typography lang).
    { rewrite <- Heq. apply list_elem_of_fmap_2. by apply list_elem_of_In. }
    rewrite Heq. fold (uppercaseMarker token).
    destruct (uppercaseMarker token); simpl.
    + split; [done|]. by split.
    + split; [done|]. split; [done|]. by intros [_ ?].
  - split; [done|]. simpl. split; [done|]. intros [Hmem _]. exfalso.
    apply list_elem_of_fmap in Hmem as (f & -> & Hf).
    apply list_elem_of_In in Hf.
    pose proof (find_none _ _ Hfind f Hf) as Hne. simpl in Hne.
    by rewrite String.eqb_refl in Hne.
Qed.

(** X3.  A carousel has a photographic background exactly when its style
    token is present and contains "foto" or "photo" somewhere, in lower case;
    a carousel without a style token never has one. *)
Theorem isPhotoBg_substring (c : Carousel) :
  (isPhotoBg c = true <->
   exists style a b, estilo_fundo c = Some style
     /\ (style = a +:+ "foto" +:+ b \/ style = a +:+ "photo" +:+ b))
  /\ (estilo_fundo c = None -> isPhotoBg c = false)
  /\ (estilo_fundo c = Some "Foto realista" -> isPhotoBg c = false).
Proof.
  unfold isPhotoBg. split; [|split; [by intros ->|by intros ->]].
  destruct (estilo_fundo c) as [style|].
  - rewrite orb_true_iff, !includes_spec. split.
    + intros [(a & b & H)|(a & b & H)]; exists style, a, b; auto.
    + intros (style' & a & b & [= <-] & [H|H]); [left|right]; by exists a, b.
  - split; [done|]. by intros (style & a & b & H & _).
Qed.

(** ** Text Layout Engine: where and how much [wrapText] draws *)

Lemma advance_spec (y lineHeight : Q) (i : nat) :
  (advance y lineHeight i == y + inject_Z (Z.of_nat i) * lineHeight)%Q.
Proof.
  induction i as [|i IH].
  - simpl. ring.
  - change (advance y lineHeight (S i)) with (advance y lineHeight i + lineHeight)%Q.
    rewrite IH, Nat2Z.inj_succ. unfold Z.succ. rewrite inject_Z_plus. ring.
Qed.

Lemma place_snoc (x y lineHeight : Q) (ls : list string) (l : string) :
  place x y lineHeight (ls ++ [l]) =
    place x y lineHeight ls ++ [FillText l x (advance y lineHeight (length ls))].
Proof. unfold place. rewrite imap_app. simpl. by rewrite Nat.add_0_r. Qed.

Lemma wrap_loop_place (measure : string -> Q) (x y0 W lh : Q) (words : list string) :
  forall (n : nat) (st : WrapState),
    drawn st = place x y0 lh (filled_lines (drawn st)) ->
    cur_y st = advance y0 lh (length (filled_lines (drawn st))) ->
    let st' := wrap_loop measure x W lh words n st in
    drawn st' = place x y0 lh (filled_lines (drawn st'))
    /\ cur_y st' = advance y0 lh (length (filled_lines (drawn st'))).
Proof.
  induction words as [|w words IH]; intros n st Hdrawn Hy; simpl; [done|].
  apply IH; unfold wrap_step; destruct (Qgt_bool _ _ && _); simpl; try done.
  - by rewrite filled_lines_snoc, place_snoc, <- Hdrawn, <- Hy.
  - rewrite filled_lines_snoc, length_app, Hy. simpl. by rewrite Nat.add_1_r.
Qed.

Lemma wrapText_place (measure : string -> Q) (text : string) (x y W lh : Q) :
  (wrapText measure text x y W lh).1 = place x y lh (wrapLines measure W text).
Proof.
  assert (Hlines : filled_lines (wrapText measure text x y W lh).1 = wrapLines measure W text).
  { rewrite wrapLines_groups. apply wrapText_groups. }
  rewrite <- Hlines. unfold wrapText. simpl.
  destruct (wrap_loop_place measure x y W lh (split_space text) 0
              {| line := ""; cur_y := y; lines := 0; drawn := [] |} eq_refl eq_refl)
    as [Hdrawn Hy].
  rewrite filled_lines_snoc, place_snoc, <- Hdrawn, <- Hy. done.
Qed.

Lemma groups_length_le (gs : list (list string)) :
  Forall (fun g => g <> []) gs -> (length gs <= length (concat gs))%nat.
Proof.
  induction 1 as [|g gs Hg _ IH]; simpl; [done|].
  rewrite length_app. destruct g; [done|]. simpl. lia.
Qed.

Lemma text_calls_id (l : list CanvasOp) :
  (forall op, op ∈ l -> exists s a b, op = FillText s a b) -> text_calls l = l.
Proof.
  induction l as [|op l IH]; intros H; [done|].
  destruct (H op (list_elem_of_here _ _)) as (s & a & b & ->). simpl. f_equal.
  apply IH. intros op' Hop'. by apply H, list_elem_of_further.
Qed.

Lemma text_calls_place (x y lh : Q) (ls : list string) :
  text_calls (place x y lh ls) = place x y lh ls.
Proof.
  apply text_calls_id. intros op (i & l & -> & _)%elem_of_lookup_imap. eauto.
Qed.

Lemma wrapLines_length_le (measure : string -> Q) (W : Q) (text : string) :
  (length (wrapLines measure W text) <= length (split_space text))%nat.
Proof.
  destruct (wrapGroups_spec measure W text) as (Hwords & Hne & _ & _).
  pose proof (groups_length_le _ Hne) as Hle. rewrite Hwords in Hle.
  by rewrite wrapLines_groups, length_map.
Qed.

Lemma advance_integers (y lineHeight : Z) (i : nat) :
  advance (inject_Z y) (inject_Z lineHeight) i = inject_Z (y + Z.of_nat i * lineHeight).
Proof.
  induction i as [|i IH].
  - unfold advance. simpl. f_equal. lia.
  - change (advance (inject_Z y) (inject_Z lineHeight) (S i))
      with (advance (inject_Z y) (inject_Z lineHeight) i + inject_Z lineHeight)%Q.
    rewrite IH. unfold Qplus, inject_Z. cbn [Qnum Qden]. f_equal. lia.
Qed.

(** X4.  On integer coordinates whose sums stay within the integers a
    number holds exactly (up to 2^53 in magnitude, where [y += lineHeight] is
    exact), the lines are drawn top to bottom from the given point: line
    number [i] (from 0) is one [fillText] call at the same [x] and at
    [y + i * lineHeight], the first line on [y] itself, and every coordinate
    drawn at is such an integer. *)
Theorem wrapText_positions (measure : string -> Q) (text : string)
    (x maxWidth : Q) (y lineHeight : Z) :
  Z.abs y + Z.of_nat (length (split_space text)) * Z.abs lineHeight <= 2 ^ 53 ->
  let r := wrapText measure text x (inject_Z y) maxWidth (inject_Z lineHeight) in
  r.1 = imap (fun i l => FillText l x (inject_Z (y + Z.of_nat i * lineHeight)))
          (wrapLines measure maxWidth text)
  /\ head r.1 = (fun l => FillText l x (inject_Z y)) <$> head (wrapLines measure maxWidth text)
  /\ (forall i l x' y',
        r.1 !! i = Some (FillText l x' y') ->
        x' = x /\ exists k : Z, y' = inject_Z k /\ Z.abs k <= 2 ^ 53).
Proof.
  intros Hbound r.
  assert (Hr : r.1 = imap (fun i l => FillText l x (inject_Z (y + Z.of_nat i * lineHeight)))
                       (wrapLines measure maxWidth text)).
  { subst r. rewrite wrapText_place. unfold place. apply imap_ext.
    intros i l _. by rewrite advance_integers. }
  split; [exact Hr|]. split.
  - rewrite Hr. destruct (wrapLines measure maxWidth text) as [|l ls]; [done|].
    simpl. do 3 f_equal. lia.
  - intros i l x' y' Hi. rewrite Hr, list_lookup_imap in Hi.
    destruct (wrapLines measure maxWidth text !! i) as [l'|] eqn:Hl; [|done].
    injection Hi as _ <- <-. split; [done|].
    exists (y + Z.of_nat i * lineHeight). split; [done|].
    apply lookup_lt_Some in Hl.
    pose proof (wrapLines_length_le measure maxWidth text) as Hle.
    assert (Habs : Z.abs (Z.of_nat i * lineHeight) = Z.of_nat i * Z.abs lineHeight)
      by (rewrite Z.abs_mul; f_equal; lia).
    pose proof (Z.abs_triangle y (Z.of_nat i * lineHeight)) as Htri.
    assert (Hmul : Z.of_nat i * Z.abs lineHeight
                   <= Z.of_nat (length (split_space text)) * Z.abs lineHeight)
      by (apply Z.mul_le_mono_nonneg_r; lia).
    lia.
Qed.

Lemma wrapText_positions_witness :
  (wrapText mono10 "Ola mundo" 540 (inject_Z 540) 60 (inject_Z 84)).1
  = [FillText "Ola " 540 (inject_Z 540); FillText "mundo " 540 (inject_Z 624)].
Proof.
  destruct (wrapText_positions mono10 "Ola mundo" 540 60 540 84) as (Hcalls & _).
  - by vm_compute.
  - rewrite Hcalls. reflexivity.
Defined.

(** X5.  [wrapText] always draws at least one line, also for the empty
    text, and never more lines than the text has words (pieces between
    spaces); the number it returns is the number of calls it made, all of them
    [fillText] calls. *)
Theorem wrapText_line_count (measure : string -> Q) (text : string)
    (x y maxWidth lineHeight : Q) :
  let r := wrapText measure text x y maxWidth lineHeight in
  (1 <= r.2 <= length (split_space text))%nat
  /\ r.2 = length r.1
  /\ text_calls r.1 = r.1.
Proof.
  intros r. subst r.
  destruct (wrapText_groups measure text x y maxWidth lineHeight) as [Hlines Hcount].
  destruct (wrapGroups_spec measure maxWidth text) as (Hwords & Hne & _ & _).
  pose proof (groups_length_le _ Hne) as Hle. rewrite Hwords in Hle.
  assert (Hpos : (1 <= length (wrapGroups measure maxWidth text))%nat).
  { unfold wrapGroups. rewrite length_app. simpl. lia. }
  rewrite Hcount. split; [lia|].
  rewrite wrapText_place, text_calls_place, wrapLines_groups. unfold place.
  by rewrite length_imap, length_map.
Qed.

Lemma spaced_join (g : list string) : g <> [] -> spaced g = join_space g +:+ " ".
Proof.
  induction g as [|w g IH]; intros Hne; [done|].
  rewrite spaced_cons. destruct g as [|w' g]; [done|].
  rewrite IH by done.
  change (join_space (w :: w' :: g)) with (w +:+ " " +:+ join_space (w' :: g)).
  by rewrite !str_app_assoc.
Qed.

(** X6.  A text that fits is drawn unchanged on a single line: under a
    measure for which a part is never wider than the whole, if the text
    followed by a space measures at most [maxWidth], [wrapText] makes exactly
    one [fillText] call, with the text and that space at [(x, y)], and
    returns 1. *)
Theorem wrapText_fits_one_line (measure : string -> Q) (text : string)
    (x y maxWidth lineHeight : Q) :
  monotone measure ->
  (measure (text +:+ " ") <= maxWidth)%Q ->
  wrapText measure text x y maxWidth lineHeight = ([FillText (text +:+ " ") x y], 1%nat).
Proof.
  intros Hmono Hfit.
  assert (Hsp : spaced (split_space text) = text +:+ " ")
    by (rewrite spaced_join by apply split_space_nonempty; by rewrite join_split).
  assert (Hpre : prefixes_fit measure maxWidth (split_space text)).
  { intros k _. eapply Qle_trans; [|exact Hfit].
    rewrite <- Hsp. rewrite <- (take_drop k (split_space text)) at 2.
    rewrite spaced_app. apply (Hmono "" _ _). }
  assert (Hgroups : wrapGroups measure maxWidth text = [split_space text]).
  { unfold wrapGroups.
    pose proof (group_loop_fitting measure maxWidth (split_space text) [] Hpre) as H.
    simpl in H. by rewrite H. }
  destruct (wrapText_groups measure text x y maxWidth lineHeight) as [_ Hcount].
  rewrite (surjective_pairing (wrapText measure text x y maxWidth lineHeight)).
  rewrite Hcount, wrapText_place, wrapLines_groups, Hgroups. simpl.
  by rewrite Hsp.
Qed.

Lemma wrapText_fits_one_line_witness :
  wrapText mono10 "Ola mundo" 540 540 918 84 = ([FillText "Ola mundo " 540 540], 1%nat).
Proof.
  apply (wrapText_fits_one_line mono10 "Ola mundo" 540 540 918 84 mono10_monotone).
  by vm_compute.
Defined.

(** ** Slide Rasterizer: fonts assigned and text drawn *)

(** The loop assigns one font per size it steps down to. *)
Lemma fontFitLoop_assigned (B : Browser) (fw ff txt : string) (fs : Z)
    (assigned : list CanvasOp) :
  exists n : nat,
    fontFitLoop B fw ff txt fs assigned =
      (fs - 5 * Z.of_nat n,
       assigned ++ ((fun k => SetFont (mkFont fw (fs - 5 * k) ff))
                      <$> seqZ 1 (Z.of_nat n))).
Proof.
  remember (Z.to_nat (fs - 30)) as m eqn:Hm.
  revert fs assigned Hm.
  induction m as [m IH] using lt_wf_ind. intros fs assigned Hm.
  rewrite fontFitLoop_while.
  destruct (Qgt_bool _ _ && (30 <? fs)) eqn:Hc.
  - apply andb_true_iff in Hc as [_ Hfs]. apply Z.ltb_lt in Hfs.
    destruct (IH (Z.to_nat (fs - 5 - 30)) ltac:(lia) (fs - 5)
                (assigned ++ [SetFont (mkFont fw (fs - 5) ff)]) eq_refl) as [n Hn].
    exists (S n). rewrite Hn. f_equal; [lia|].
    rewrite <- app_assoc. f_equal.
    rewrite (seqZ_cons 1 (Z.of_nat (S n))) by lia. rewrite fmap_cons. simpl app.
    f_equal.
    replace (Z.pred (Z.of_nat (S n))) with (Z.of_nat n) by lia.
    replace (Z.succ 1) with (1 + 1) by lia.
    rewrite <- fmap_add_seqZ, <- list_fmap_compose.
    apply list_fmap_ext. intros _ k _. simpl. do 2 f_equal. lia.
  - exists 0%nat. simpl. rewrite app_nil_r. f_equal. lia.
Qed.

(** X7.  The dynamic font size is reached through one assignment to
    [ctx.font] per size tried: the base size first, then each size 5 smaller,
    down to the final size.  The last font assigned is therefore the one at the
    final size, the size that line height and wrapping use. *)
Theorem fitFont_assignments (B : Browser) (details : FontDetails) (slide : Slide) :
  let fit := fitFont B details slide in
  let font (s : Z) := SetFont (mkFont (fontWeight details) s (fontFamily details)) in
  exists n : nat,
    fit.1 = baseFontSize slide - 5 * Z.of_nat n
    /\ fit.2 = (fun k => font (baseFontSize slide - 5 * k)) <$> seqZ 0 (Z.of_nat n + 1)
    /\ length fit.2 = S n
    /\ last fit.2 = Some (font fit.1).
Proof.
  intros fit font. subst fit. unfold fitFont.
  destruct (fontFitLoop_assigned B (fontWeight details) (fontFamily details)
              (slideText B details slide) (baseFontSize slide)
              [SetFont (mkFont (fontWeight details) (baseFontSize slide)
                          (fontFamily details))]) as [n Hn].
  exists n. rewrite Hn. cbn [fst snd].
  assert (Hlist : [SetFont (mkFont (fontWeight details) (baseFontSize slide)
                              (fontFamily details))]
                  ++ ((fun k => SetFont (mkFont (fontWeight details)
                                          (baseFontSize slide - 5 * k)
                                          (fontFamily details)))
                        <$> seqZ 1 (Z.of_nat n))
                  = (fun k => font (baseFontSize slide - 5 * k))
                      <$> seqZ 0 (Z.of_nat n + 1)).
  { rewrite (seqZ_cons 0) by lia. rewrite fmap_cons. simpl app. unfold font.
    f_equal; [do 2 f_equal; lia|].
    replace (Z.pred (Z.of_nat n + 1)) with (Z.of_nat n) by lia. done. }
  rewrite Hlist. split; [done|]. split; [done|]. split.
  - rewrite length_fmap, length_seqZ. lia.
  - rewrite fmap_last.
    replace (Z.of_nat n + 1) with (Z.of_nat (S n)) by lia.
    rewrite seqZ_S, last_snoc. simpl. unfold font. by rewrite Z.add_0_l.
Qed.

Lemma fitFont_assigned_fonts (B : Browser) (details : FontDetails) (slide : Slide) :
  exists l : list Z,
    (fitFont B details slide).2 =
      (fun k => SetFont (mkFont (fontWeight details) k (fontFamily details))) <$> l.
Proof.
  unfold fitFont.
  destruct (fontFitLoop_assigned B (fontWeight details) (fontFamily details)
              (slideText B details slide) (baseFontSize slide)
              [SetFont (mkFont (fontWeight details) (baseFontSize slide)
                          (fontFamily details))]) as [n Hn].
  exists (baseFontSize slide
          :: ((fun k => baseFontSize slide - 5 * k) <$> seqZ 1 (Z.of_nat n))).
  rewrite Hn. simpl. f_equal. by rewrite <- list_fmap_compose.
Qed.

Lemma text_calls_app (l1 l2 : list CanvasOp) :
  text_calls (l1 ++ l2) = text_calls l1 ++ text_calls l2.
Proof. apply List.filter_app. Qed.

Lemma text_calls_fonts (fw ff : string) (l : list Z) :
  text_calls ((fun k => SetFont (mkFont fw k ff)) <$> l) = [].
Proof. induction l as [|k l IH]; [done|]. by rewrite fmap_cons. Qed.

(** X8.  Whatever the background, the only text calls on the canvas of a
    slide are the lines of the (possibly upper-cased) phrase, wrapped at 85% of
    the canvas width under the fitted font, all at [x = 540]; the first line is
    at [y = 540] and each further line 1.2 times the fitted font size lower. *)
Theorem renderSlideCanvas_text (B : Browser) (typography : Language -> list FontOption)
    (slide : Slide) (carousel : Carousel) (language : Language)
    (bgImage : option HTMLImageElement) :
  let details := getFontDetails typography (or_empty (tipografia carousel)) language in
  let fontSize := (fitFont B details slide).1 in
  let font := mkFont (fontWeight details) fontSize (fontFamily details) in
  let ls := wrapLines (measureText B font) maxTextWidth (slideText B details slide) in
  text_calls (ops (renderSlideCanvas B typography slide carousel language bgImage)) =
    imap (fun i l => FillText l (inject_Z 1080 / 2)
                       (advance (inject_Z 1080 / 2) (inject_Z fontSize * 1.2) i)) ls
  /\ (forall i : nat,
        advance (inject_Z 1080 / 2) (inject_Z fontSize * 1.2) i
        == 540 + inject_Z (Z.of_nat i) * (12 / 10 * inject_Z fontSize))%Q
  /\ (1 <= length ls)%nat.
Proof.
  intros details fontSize font ls. split; [|split].
  - unfold renderSlideCanvas. fold details. cbn [ops].
    rewrite !text_calls_app.
    assert (Hbg : text_calls
              match bgImage with
              | Some img =>
                  [DrawImage img 0 0 (inject_Z size) (inject_Z size);
                   SetFillStyle (Solid "rgba(0, 0, 0, 0.5)");
                   FillRect 0 0 (inject_Z size) (inject_Z size)]
              | None =>
                  [SetFillStyle (backgroundPaint (getColorPalette (paleta_cores carousel)));
                   FillRect 0 0 (inject_Z size) (inject_Z size)]
              end = []) by (by destruct bgImage).
    rewrite Hbg.
    destruct (fitFont_assigned_fonts B details slide) as [l Hl].
    rewrite Hl, text_calls_fonts, wrapText_place, text_calls_place. done.
  - intros i. rewrite advance_spec.
    assert (H1 : (inject_Z 1080 / 2 == 540)%Q) by reflexivity.
    assert (H2 : (1.2 == 12 / 10)%Q) by reflexivity.
    rewrite H1, H2. ring.
  - subst ls. rewrite wrapLines_groups, length_map. unfold wrapGroups.
    rewrite length_app. simpl. lia.
Qed.

(** ** Carousel Image Orchestrator: barrier, attribution, requests *)

Lemma run_pending (b : nat) (arrivals : list (nat * option string)) (j : nat) :
  forall (st : PreviewState) (batch : Batch),
    batches st !! b = Some batch ->
    NoDup arrivals.*1 ->
    (forall i, i ∈ arrivals.*1 -> slots batch !! i = Some None) ->
    slots batch !! j = Some None -> j ∉ arrivals.*1 ->
    let st' := run st (resolutions b arrivals) in
    imageUrls st' = imageUrls st /\ isLoadingImages st' = isLoadingImages st.
Proof.
  induction arrivals as [|[i r] arrivals IH]; intros st batch Hb Hnd Hpend Hj Hnotin;
    [done|].
  rewrite fmap_cons in Hnd, Hnotin. apply NoDup_cons in Hnd as [Hi Hnd].
  apply not_elem_of_cons in Hnotin as [Hji Hnotin]. simpl in Hi, Hji.
  assert (Hslot : slots batch !! i = Some None)
    by (apply Hpend; rewrite fmap_cons; apply list_elem_of_here).
  cbv zeta.
  change (run st (resolutions b ((i, r) :: arrivals)))
    with (run (handle st (Resolved b i r)) (resolutions b arrivals)).
  rewrite (handle_resolve_more st b i j r batch) by done.
  set (st1 := {| carousel := carousel st; generation := generation st;
                 imageUrls := imageUrls st; isLoadingImages := isLoadingImages st;
                 batches := <[b := resolve_slot batch i r]> (batches st);
                 requested := requested st |}).
  apply (IH st1 (resolve_slot batch i r)).
  - simpl. apply list_lookup_insert_eq. by apply lookup_lt_Some in Hb.
  - done.
  - intros k Hk. simpl. assert (k <> i) by (by intros ->).
    rewrite list_lookup_insert_ne by done. apply Hpend.
    rewrite fmap_cons. by apply list_elem_of_further.
  - simpl. by rewrite list_lookup_insert_ne.
  - done.
Qed.

(** X9.  Fan-in barrier.  While at least one request of a photographic
    carousel is still pending, whichever of the others have resolved and in
    whatever order, the image map of the freshly mounted preview is still
    empty and the loading flag is still set. *)
Theorem images_applied_only_when_all_resolved
    (c : Carousel) (arrivals : list (nat * option string)) (j : nat) :
  isPhotoBg c = true ->
  NoDup arrivals.*1 ->
  (forall i, i ∈ arrivals.*1 -> (i < length (slides c))%nat) ->
  (j < length (slides c))%nat ->
  j ∉ arrivals.*1 ->
  let st := run (mount c) (resolutions 0 arrivals) in
  imageUrls st = ∅ /\ isLoadingImages st = true.
Proof.
  intros Hphoto Hnd Hin Hj Hnotin.
  set (b0 := {| subject := c; started_at := 0;
                slots := map (fun _ => None) (slides c) |}).
  assert (Hmount : mount c = {| carousel := c; generation := 0; imageUrls := ∅;
                                isLoadingImages := true; batches := [b0];
                                requested := [] ++ map prompt_imagem (slides c) |}).
  { unfold mount, runEffect. simpl. rewrite Hphoto. fold b0.
    by rewrite (settled_false b0 j) by (by apply pending_lookup). }
  rewrite Hmount. cbv zeta.
  destruct (run_pending 0 arrivals j
              {| carousel := c; generation := 0; imageUrls := ∅;
                 isLoadingImages := true; batches := [b0];
                 requested := [] ++ map prompt_imagem (slides c) |} b0)
    as [Hmap Hload]; try done.
  - intros i Hi. apply pending_lookup. by apply Hin.
  - by apply pending_lookup.
Qed.

Lemma images_applied_only_when_all_resolved_witness :
  imageUrls (run (mount photoB) (resolutions 0 [(1%nat, Some "data:C")])) = ∅
  /\ isLoadingImages (run (mount photoB) (resolutions 0 [(1%nat, Some "data:C")])) = true.
Proof.
  apply (images_applied_only_when_all_resolved photoB [(1%nat, Some "data:C")] 0).
  - reflexivity.
  - apply NoDup_singleton.
  - intros i Hi. apply list_elem_of_singleton in Hi as ->. simpl. lia.
  - simpl. lia.
  - simpl. by intros ?%list_elem_of_singleton.
Defined.

Lemma collectUrls_snoc (slides : list Slide) (results : list (option string))
    (url : option string) :
  collectUrls slides (results ++ [url]) =
    match truthy url, slides !! length results with
    | Some u, Some slide => <[ordem slide := u]> (collectUrls slides results)
    | _, _ => collectUrls slides results
    end.
Proof.
  unfold collectUrls. rewrite imap_app, foldl_app. simpl. by rewrite Nat.add_0_r.
Qed.

(** X10.  When several slides share an order value, the entry under that
    order is the result of the last of them whose request gave a usable
    (non-null, non-empty) result: later failures do not erase it, earlier
    successes are overwritten. *)
Theorem collectUrls_last_success_wins
    (slides : list Slide) (before after : list (option string))
    (slide : Slide) (u : string) :
  slides !! length before = Some slide ->
  u <> "" ->
  (forall j slide' url,
     after !! j = Some url ->
     slides !! (length before + 1 + j)%nat = Some slide' ->
     ordem slide' = ordem slide -> truthy url = None) ->
  collectUrls slides (before ++ Some u :: after) !! ordem slide = Some u.
Proof.
  intros Hs Hu. induction after as [|url after IH] using rev_ind; intros Hlater.
  - rewrite collectUrls_snoc, truthy_some, Hs by done. apply lookup_insert_eq.
  - rewrite app_comm_cons, app_assoc, collectUrls_snoc.
    assert (IH' : collectUrls slides (before ++ Some u :: after) !! ordem slide = Some u).
    { apply IH. intros j slide' url' Hj. apply Hlater. by apply lookup_app_l_Some. }
    destruct (truthy url) as [u'|] eqn:Hurl; [|done].
    destruct (slides !! length (before ++ Some u :: after)) as [slide'|] eqn:Hs';
      [|done].
    cbv beta iota.
    destruct (decide (ordem slide' = ordem slide)) as [Heq|Hne];
      [|by rewrite lookup_insert_ne].
    exfalso. rewrite length_app in Hs'. simpl in Hs'.
    specialize (Hlater (length after) slide' url).
    rewrite lookup_app_r, Nat.sub_diag in Hlater by lia.
    rewrite <- Nat.add_assoc, (Nat.add_comm 1), <- Nat.add_1_r in Hlater.
    rewrite Hlater in Hurl; [done|done| |done].
    rewrite <- Hs'. f_equal. lia.
Qed.

Lemma collectUrls_last_success_wins_witness :
  collectUrls [sampleSlide 1 capa "A"; sampleSlide 1 conteudo "B"; sampleSlide 1 cta "C"]
    ([Some "data:A"] ++ Some "data:B" :: [None]) !! 1 = Some "data:B".
Proof.
  apply (collectUrls_last_success_wins
           [sampleSlide 1 capa "A"; sampleSlide 1 conteudo "B"; sampleSlide 1 cta "C"]
           [Some "data:A"] [None] (sampleSlide 1 conteudo "B") "data:B").
  - reflexivity.
  - done.
  - intros [|j] slide' url Hj _ _; simpl in Hj; [by injection Hj as <-|done].
Defined.

Lemma generateImage_prefixed (parts : option (list Part)) (url : string) :
  generateImage parts = Some url ->
  exists d, url = "data:image/png;base64," +:+ d.
Proof.
  unfold generateImage. destruct parts as [l|]; [|done].
  destruct (List.find _ l) as [part|]; [|done].
  destruct (inlineData part) as [d|]; [|done].
  intros [= <-]. by exists (data d).
Qed.

Lemma generateImage_truthy (parts : option (list Part)) :
  truthy (generateImage parts) = generateImage parts.
Proof.
  destruct (generateImage parts) as [url|] eqn:Hg; [|done].
  apply generateImage_prefixed in Hg as [d ->]. done.
Qed.

(** X11.  [generateImage] answers with the data URI of the first part of
    the reply that carries inline data, and with [null] when no part does or
    when anything throws.  A non-null answer always starts with
    "data:image/png;base64,", so the orchestrator's [if (url)] never drops it:
    with distinct order values, the entry of each slide in the image map is
    exactly what [generateImage] answered for that slide. *)
Theorem generateImage_feeds_image_map
    (slides : list Slide) (replies : list (option (list Part))) :
  (forall l1 l2 d,
     Forall (fun part => inlineData part = None) l1 ->
     generateImage (Some (l1 ++ {| inlineData := Some d |} :: l2))
     = Some ("data:image/png;base64," +:+ data d))
  /\ (forall l, Forall (fun part => inlineData part = None) l ->
        generateImage (Some l) = None)
  /\ generateImage None = None
  /\ (forall reply url, generateImage reply = Some url ->
        url <> "" /\ exists d, url = "data:image/png;base64," +:+ d)
  /\ (NoDup (ordem <$> slides) ->
      forall i slide, slides !! i = Some slide ->
        collectUrls slides (generateImage <$> replies) !! ordem slide
        = replies !! i ≫= generateImage).
Proof.
  split; [|split; [|split; [done|split]]].
  - intros l1 l2 d Hl1. unfold generateImage.
    induction Hl1 as [|part l1 Hpart _ IH]; simpl; [done|].
    rewrite Hpart. simpl. apply IH.
  - intros l Hl. unfold generateImage.
    induction Hl as [|part l Hpart _ IH]; simpl; [done|].
    rewrite Hpart. simpl. apply IH.
  - intros reply url Hg. apply generateImage_prefixed in Hg as [d ->].
    split; [done | by exists d].
  - intros Hnd i slide Hs. rewrite (collectUrls_own slides _ i slide) by done.
    rewrite list_lookup_fmap. destruct (replies !! i) as [reply|]; [|done].
    simpl. apply generateImage_truthy.
Qed.

Lemma generateImage_feeds_image_map_witness :
  collectUrls [sampleSlide 1 capa "A"; sampleSlide 2 cta "B"]
    (generateImage <$> [None; Some [ {| inlineData := None |};
                                     {| inlineData := Some {| data := "QUJD" |} |} ]])
    !! 2
  = Some "data:image/png;base64,QUJD".
Proof.
  destruct (generateImage_feeds_image_map
              [sampleSlide 1 capa "A"; sampleSlide 2 cta "B"]
              [None; Some [ {| inlineData := None |};
                            {| inlineData := Some {| data := "QUJD" |} |} ]])
    as (_ & _ & _ & _ & Hmap).
  apply (Hmap ltac:(apply (bool_decide_unpack _); vm_compute; exact I)
           1%nat (sampleSlide 2 cta "B") eq_refl).
Defined.

Lemma handle_resolved_requested (st : PreviewState) (b i : nat) (r : option string) :
  requested (handle st (Resolved b i r)) = requested st
  /\ length (batches (handle st (Resolved b i r))) = length (batches st)
  /\ generation (handle st (Resolved b i r)) = generation st.
Proof.
  simpl. destruct (batches st !! b) as [batch|]; [|done].
  destruct (slots batch !! i) as [[x|]|]; try done.
  destruct (settled _); simpl; by rewrite length_insert.
Qed.

Lemma runEffect_requested (st : PreviewState) :
  requested (runEffect st) = requested st ++ prompts_of (carousel st)
  /\ length (batches (runEffect st)) =
       (length (batches st) + (if isPhotoBg (carousel st) then 1 else 0))%nat
  /\ generation (runEffect st) = generation st.
Proof.
  unfold runEffect, prompts_of. destruct (isPhotoBg (carousel st)).
  - destruct (settled _); simpl; by rewrite length_app.
  - by rewrite app_nil_r, Nat.add_0_r.
Qed.

(** The carousels of the changes among [evs]. *)
Lemma changes_cons_changed (c c0 c' : Carousel) (evs : list Event) :
  tail (carousels_seen c (CarouselChanged c' :: evs)) = c' :: tail (carousels_seen c0 evs).
Proof. reflexivity. Qed.

Lemma changes_cons_resolved (c c0 : Carousel) (b i : nat) (r : option string)
    (evs : list Event) :
  tail (carousels_seen c (Resolved b i r :: evs)) = tail (carousels_seen c0 evs).
Proof. reflexivity. Qed.

Lemma carousels_seen_cons (c c0 : Carousel) (evs : list Event) :
  carousels_seen c evs = c :: tail (carousels_seen c0 evs).
Proof. reflexivity. Qed.

Lemma run_requested (evs : list Event) :
  forall st : PreviewState,
    requested (run st evs) =
      requested st ++ flat_map prompts_of (tail (carousels_seen (carousel st) evs))
    /\ length (batches (run st evs)) =
         (length (batches st)
          + length (List.filter isPhotoBg (tail (carousels_seen (carousel st) evs))))%nat
    /\ generation (run st evs) =
         (generation st + length (tail (carousels_seen (carousel st) evs)))%nat.
Proof.
  induction evs as [|ev evs IH]; intros st.
  - simpl. by rewrite app_nil_r, !Nat.add_0_r.
  - change (run st (ev :: evs)) with (run (handle st ev) evs).
    destruct (IH (handle st ev)) as (Hreq & Hbat & Hgen).
    rewrite Hreq, Hbat, Hgen. clear IH Hreq Hbat Hgen.
    destruct ev as [c'|b i r].
    + rewrite (changes_cons_changed (carousel st)
                 (carousel (handle st (CarouselChanged c'))) c' evs).
      generalize (tail (carousels_seen (carousel (handle st (CarouselChanged c'))) evs)).
      intros rest.
      destruct (runEffect_requested
                  {| carousel := c'; generation := S (generation st);
                     imageUrls := imageUrls st;
                     isLoadingImages := isLoadingImages st;
                     batches := batches st; requested := requested st |})
        as (H1 & H2 & H3).
      change (runEffect _) with (handle st (CarouselChanged c')) in H1, H2, H3.
      rewrite H1, H2, H3. cbn [carousel requested batches generation].
      cbn [flat_map List.filter length]. rewrite <- app_assoc.
      split; [done|]. destruct (isPhotoBg c'); cbn [length]; lia.
    + rewrite (changes_cons_resolved (carousel st)
                 (carousel (handle st (Resolved b i r))) b i r evs).
      destruct (handle_resolved_requested st b i r) as (H1 & H2 & H3).
      by rewrite H1, H2, H3.
Qed.

(** X12.  The requests sent by a preview are exactly the image prompts of
    the slides of every photographic carousel it was rendered with, in order:
    one batch per photographic carousel, none for the others, and nothing is
    requested again or withdrawn whatever resolves, fails or is replaced. *)
Theorem requests_follow_carousels (c : Carousel) (evs : list Event) :
  let st := run (mount c) evs in
  requested st = flat_map prompts_of (carousels_seen c evs)
  /\ length (batches st) = length (List.filter isPhotoBg (carousels_seen c evs))
  /\ S (generation st) = length (carousels_seen c evs)
  /\ (forall c', prompts_of c' =
                 if isPhotoBg c' then prompt_imagem <$> slides c' else []).
Proof.
  intros st. subst st.
  destruct (run_requested evs (mount c)) as (Hreq & Hbat & Hgen).
  destruct (runEffect_requested
              {| carousel := c; generation := 0; imageUrls := ∅;
                 isLoadingImages := false; batches := []; requested := [] |})
    as (H1 & H2 & H3).
  change (runEffect _) with (mount c) in H1, H2, H3.
  cbn [carousel requested batches generation] in H1, H2, H3.
  rewrite Hreq, Hbat, Hgen, H1, H2, H3.
  rewrite (carousels_seen_cons c (carousel (mount c)) evs).
  generalize (tail (carousels_seen (carousel (mount c)) evs)). intros rest.
  cbn [flat_map List.filter length app].
  split; [done|]. split; [|split; [done|done]].
  destruct (isPhotoBg c); cbn [length]; lia.
Qed.

(** ** Batch Exporter: names, overwriting, undecodable images *)

Lemma zip_file_fst (name : string) (blob : Blob) (files : list (string * Blob)) :
  (zip_file name blob files).*1 =
    if decide (name ∈ files.*1) then files.*1 else files.*1 ++ [name].
Proof.
  induction files as [|[n d] files IH].
  - change (zip_file name blob []) with [(name, blob)].
    destruct (decide (name ∈ ([] : list (string * Blob)).*1)) as [H|_]; [|done].
    by apply elem_of_nil in H.
  - change (zip_file name blob ((n, d) :: files))
      with (if String.eqb n name then (n, blob) :: files
            else (n, d) :: zip_file name blob files).
    rewrite (fmap_cons fst (n, d) files). cbn [fst].
    destruct (String.eqb_spec n name) as [->|Hne].
    + rewrite decide_True by apply list_elem_of_here. by rewrite fmap_cons.
    + rewrite fmap_cons, IH. cbn [fst].
      destruct (decide (name ∈ files.*1)) as [Hin|Hnot].
      * by rewrite decide_True by (by apply list_elem_of_further).
      * rewrite decide_False; [done|]. by intros [?|?]%elem_of_cons.
Qed.

Lemma zip_file_NoDup (name : string) (blob : Blob) (files : list (string * Blob)) :
  NoDup files.*1 -> NoDup (zip_file name blob files).*1.
Proof.
  intros Hnd. rewrite zip_file_fst. destruct (decide _) as [|Hnot]; [done|].
  apply NoDup_app. split; [done|]. split; [|apply NoDup_singleton].
  intros n Hn ->%list_elem_of_singleton. done.
Qed.

Lemma zip_file_length (name : string) (blob : Blob) (files : list (string * Blob)) :
  (length (zip_file name blob files) <= S (length files))%nat.
Proof.
  rewrite <- (length_fmap fst), zip_file_fst, <- (length_fmap fst files).
  destruct (decide _); [lia|]. rewrite length_app. simpl. lia.
Qed.

Lemma zip_file_written (name : string) (blob : Blob) (files : list (string * Blob)) :
  (name, blob) ∈ zip_file name blob files.
Proof.
  induction files as [|[n d] files IH]; simpl; [apply list_elem_of_here|].
  destruct (String.eqb_spec n name) as [->|Hne];
    [apply list_elem_of_here | by apply list_elem_of_further].
Qed.

Lemma zip_file_other (name n : string) (blob d : Blob) (files : list (string * Blob)) :
  n <> name -> (n, d) ∈ files -> (n, d) ∈ zip_file name blob files.
Proof.
  intros Hne. induction files as [|[n' d'] files IH]; simpl.
  - by intros ?%elem_of_nil.
  - intros [[= <- <-]|Hin]%elem_of_cons.
    + destruct (String.eqb_spec n name) as [Heq|_];
        [by destruct Hne | apply list_elem_of_here].
    + destruct (String.eqb_spec n' name) as [->|_];
        apply list_elem_of_further; [done | by apply IH].
Qed.

Lemma assoc_unique (l : list (string * Blob)) (n : string) (d1 d2 : Blob) :
  NoDup l.*1 -> (n, d1) ∈ l -> (n, d2) ∈ l -> d1 = d2.
Proof.
  induction l as [|[n' d'] l IH]; [by intros _ ?%elem_of_nil|].
  rewrite fmap_cons. intros [Hnot Hnd]%NoDup_cons. simpl in Hnot.
  intros [[= -> ->]|H1]%elem_of_cons [[= <-]|H2]%elem_of_cons.
  - done.
  - destruct Hnot. by apply (list_elem_of_fmap_2 fst l (n', d2)).
  - destruct Hnot. subst. by apply (list_elem_of_fmap_2 fst l (n, d1)).
  - by apply IH.
Qed.

Section ExporterMore.
Variable render : Slide -> option HTMLImageElement -> option Blob.
Variable imageUrls : gmap Z string.
Variable decodes : string -> bool.

Let step (zip : list (string * Blob)) (slide : Slide) : list (string * Blob) :=
  match render slide (slideBackground imageUrls decodes slide) with
  | Some blob => zip_file (slideFileName slide) blob zip
  | None => zip
  end.

Lemma zip_loop_NoDup (slides : list Slide) :
  forall acc : list (string * Blob),
    NoDup acc.*1 ->
    NoDup (foldl step acc slides).*1
    /\ (length (foldl step acc slides) <= length acc + length slides)%nat.
Proof.
  induction slides as [|s slides IH]; intros acc Hnd; simpl; [split; [done|lia]|].
  destruct (IH (step acc s)) as [H1 H2].
  - unfold step. destruct (render _ _); [by apply zip_file_NoDup | done].
  - split; [done|].
    assert (length (step acc s) <= S (length acc))%nat; [|lia].
    unfold step. destruct (render _ _); [apply zip_file_length | lia].
Qed.

Lemma zip_loop_keeps (slides : list Slide) (n : string) (d : Blob) :
  (forall slide, slide ∈ slides -> slideFileName slide = n ->
     render slide (slideBackground imageUrls decodes slide) = None) ->
  forall acc : list (string * Blob),
    (n, d) ∈ acc -> (n, d) ∈ foldl step acc slides.
Proof.
  induction slides as [|s slides IH]; intros Hlater acc Hin; simpl; [done|].
  apply IH; [intros s' Hs'; apply Hlater; by apply list_elem_of_further|].
  unfold step.
  destruct (render s (slideBackground imageUrls decodes s)) as [blob|] eqn:Hr; [|done].
  apply zip_file_other; [|done]. intros Heq.
  rewrite (Hlater s (list_elem_of_here _ _)) in Hr; done.
Qed.

Lemma zipSlides_last_wins (before after : list Slide) (slide : Slide) (blob : Blob) :
  render slide (slideBackground imageUrls decodes slide) = Some blob ->
  (forall slide', slide' ∈ after -> ordem slide' = ordem slide ->
     render slide' (slideBackground imageUrls decodes slide') = None) ->
  (slideFileName slide, blob)
    ∈ zipSlides render imageUrls decodes (before ++ slide :: after).
Proof.
  intros Hr Hlater. unfold zipSlides. fold step. rewrite foldl_app. simpl.
  apply zip_loop_keeps.
  - intros s' Hs' Hname. apply Hlater; [done|]. by apply slideFileName_inj.
  - unfold step at 1. rewrite Hr. apply zip_file_written.
Qed.

Lemma zipSlides_NoDup (slides : list Slide) :
  NoDup (zipSlides render imageUrls decodes slides).*1
  /\ (length (zipSlides render imageUrls decodes slides) <= length slides)%nat.
Proof.
  unfold zipSlides. fold step.
  destruct (zip_loop_NoDup slides []) as [H1 H2]; [apply NoDup_nil_2|].
  split; [done|]. simpl in H2. lia.
Qed.
End ExporterMore.

(** X13.  The archive never holds two entries of the same name and never
    more entries than the carousel has slides, also when slides share an order
    value: then the entry [slide_<ordem>.png] holds the blob of the last of
    those slides that rendered. *)
Theorem export_names_unique
    (B : Browser) (typography : Language -> list FontOption) (decodes : string -> bool)
    (carousel : Carousel) (language : Language) (imageUrls : gmap Z string) :
  let rendered slide :=
    renderSlideToBlob B typography slide carousel language
      (slideBackground imageUrls decodes slide) in
  let entries := exportEntries B typography decodes carousel language imageUrls in
  NoDup entries.*1
  /\ (length entries <= length (slides carousel))%nat
  /\ (forall before slide after blob,
        slides carousel = before ++ slide :: after ->
        rendered slide = Some blob ->
        (forall slide', slide' ∈ after -> ordem slide' = ordem slide ->
           rendered slide' = None) ->
        (slideFileName slide, blob) ∈ entries
        /\ forall blob', (slideFileName slide, blob') ∈ entries -> blob' = blob).
Proof.
  intros rendered entries.
  destruct (zipSlides_NoDup
              (fun slide bgImage =>
                 renderSlideToBlob B typography slide carousel language bgImage)
              imageUrls decodes (slides carousel)) as [Hnd Hlen].
  split; [exact Hnd|]. split; [exact Hlen|].
  intros before slide after blob Hslides Hr Hlater.
  assert (Hin : (slideFileName slide, blob) ∈ entries).
  { unfold entries, exportEntries. rewrite Hslides.
    by apply (zipSlides_last_wins
                (fun slide bgImage =>
                   renderSlideToBlob B typography slide carousel language bgImage)). }
  split; [exact Hin|]. intros blob' Hin'.
  by apply (assoc_unique entries (slideFileName slide)).
Qed.

Lemma export_names_unique_witness :
  ("slide_1.png", String.list_byte_of_string "B  ")
    ∈ exportEntries sampleBrowser sampleTypography (fun _ => true)
        (sampleCarousel None [sampleSlide 1 capa "A"; sampleSlide 1 conteudo "B"]) pt ∅.
Proof.
  destruct (export_names_unique sampleBrowser sampleTypography (fun _ => true)
              (sampleCarousel None [sampleSlide 1 capa "A"; sampleSlide 1 conteudo "B"])
              pt ∅) as (_ & _ & Hlast).
  destruct (Hlast [sampleSlide 1 capa "A"] (sampleSlide 1 conteudo "B") []
              (String.list_byte_of_string "B  ") eq_refl eq_refl) as [Hin _].
  - intros slide' Hin. by apply elem_of_nil in Hin.
  - exact Hin.
Defined.

Lemma foldl_agree {A B} (f g : A -> B -> A) (l : list B) :
  (forall a x, x ∈ l -> f a x = g a x) -> forall a, foldl f a l = foldl g a l.
Proof.
  induction l as [|x l IH]; intros H a; [done|]. simpl.
  rewrite (H a x) by apply list_elem_of_here.
  apply IH. intros a' x' Hx'. apply H. by apply list_elem_of_further.
Qed.

(** X14.  An image that cannot be decoded costs nothing but the picture:
    if, for every slide, the image map has no usable URL or the URL fails to
    load, the archive is the very archive exported with an empty image map
    (every slide on its palette background). *)
Theorem export_undecodable_images_fall_back
    (B : Browser) (typography : Language -> list FontOption) (decodes : string -> bool)
    (carousel : Carousel) (language : Language) (imageUrls : gmap Z string) :
  (forall slide url, slide ∈ slides carousel ->
     imageUrls !! ordem slide = Some url -> url = "" \/ decodes url = false) ->
  exportEntries B typography decodes carousel language imageUrls
  = exportEntries B typography decodes carousel language ∅.
Proof.
  intros Hbad. unfold exportEntries, zipSlides. apply foldl_agree.
  intros zip slide Hin.
  assert (Hbg : slideBackground imageUrls decodes slide = None).
  { unfold slideBackground.
    destruct (imageUrls !! ordem slide) as [url|] eqn:Hurl; [|done]. simpl.
    destruct (String.eqb_spec url "") as [->|Hne]; [done|].
    destruct (Hbad slide url Hin Hurl) as [?|Hdec]; [done|]. by rewrite Hdec. }
  rewrite Hbg. unfold slideBackground. by rewrite lookup_empty.
Qed.

Lemma export_undecodable_images_fall_back_witness :
  exportEntries sampleBrowser sampleTypography (fun _ => false)
    (sampleCarousel None [sampleSlide 1 capa "A"]) pt {[1 := "data:image/png;base64,QQ=="]}
  = exportEntries sampleBrowser sampleTypography (fun _ => false)
      (sampleCarousel None [sampleSlide 1 capa "A"]) pt ∅.
Proof.
  apply (export_undecodable_images_fall_back sampleBrowser sampleTypography
           (fun _ => false) (sampleCarousel None [sampleSlide 1 capa "A"]) pt
           {[1 := "data:image/png;base64,QQ=="]}).
  intros slide url _ _. by right.
Defined.

(** X15.  For order values that are safe integers, which the template
    prints as their decimal digits, two slides get the same file name
    [slide_<ordem>.png] exactly when they have the same order value: slides
    with distinct order values never overwrite one another in the archive. *)
Theorem slideFileName_same_iff (s1 s2 : Slide) :
  safeInteger (ordem s1) -> safeInteger (ordem s2) ->
  (slideFileName s1 = slideFileName s2 <-> ordem s1 = ordem s2).
Proof.
  intros _ _. split; [apply slideFileName_inj|]. unfold slideFileName. by intros ->.
Qed.

Lemma slideFileName_same_iff_witness :
  slideFileName (sampleSlide 10 conteudo "x") = "slide_10.png"
  /\ slideFileName (sampleSlide (-1) capa "y") = "slide_-1.png"
  /\ slideFileName (sampleSlide 10 conteudo "x") <> slideFileName (sampleSlide (-1) capa "y").
Proof.
  split; [reflexivity|]. split; [reflexivity|]. intros Hname.
  apply (slideFileName_same_iff (sampleSlide 10 conteudo "x") (sampleSlide (-1) capa "y"))
    in Hname.
  - discriminate Hname.
  - unfold safeInteger. simpl. lia.
  - unfold safeInteger. simpl. lia.
Defined.

(** ** Preview navigation *)

Lemma js_rem_nonneg (a b : Z) :
  0 <= a -> 0 < b -> js_rem a b = Some (a mod b).
Proof.
  intros Ha Hb. unfold js_rem. rewrite (proj2 (Z.eqb_neq b 0)) by lia.
  by rewrite Z.rem_mod_nonneg by lia.
Qed.

Lemma nextSlide_value (carousel : Carousel) (p : Z) :
  0 <= p < Z.of_nat (length (slides carousel)) ->
  nextSlide carousel (Some p) =
    Some (if p + 1 =? Z.of_nat (length (slides carousel)) then 0 else p + 1).
Proof.
  intros Hp. unfold nextSlide. simpl. rewrite js_rem_nonneg by lia. f_equal.
  destruct (Z.eqb_spec (p + 1) (Z.of_nat (length (slides carousel)))) as [->|Hne].
  - apply Z_mod_same_full.
  - apply Z.mod_small. lia.
Qed.

Lemma prevSlide_value (carousel : Carousel) (p : Z) :
  0 <= p < Z.of_nat (length (slides carousel)) ->
  prevSlide carousel (Some p) =
    Some (if p =? 0 then Z.of_nat (length (slides carousel)) - 1 else p - 1).
Proof.
  intros Hp. unfold prevSlide. simpl. rewrite js_rem_nonneg by lia. f_equal.
  destruct (Z.eqb_spec p 0) as [->|Hne].
  - replace (0 - 1 + Z.of_nat (length (slides carousel)))
      with (Z.of_nat (length (slides carousel)) - 1) by lia.
    apply Z.mod_small. lia.
  - replace (p - 1 + Z.of_nat (length (slides carousel)))
      with (p - 1 + 1 * Z.of_nat (length (slides carousel))) by lia.
    rewrite Z_mod_plus_full. apply Z.mod_small. lia.
Qed.

(** X16.  On a valid index the two arrows are inverse to each other and
    wrap around: next of the last slide is the first, previous of the first is
    the last, and both keep the index within the slides. *)
Theorem next_prev_inverse (carousel : Carousel) (p : Z) :
  let len := Z.of_nat (length (slides carousel)) in
  0 <= p < len ->
  prevSlide carousel (nextSlide carousel (Some p)) = Some p
  /\ nextSlide carousel (prevSlide carousel (Some p)) = Some p
  /\ nextSlide carousel (Some (len - 1)) = Some 0
  /\ prevSlide carousel (Some 0) = Some (len - 1)
  /\ (exists q, nextSlide carousel (Some p) = Some q /\ 0 <= q < len)
  /\ (exists q, prevSlide carousel (Some p) = Some q /\ 0 <= q < len).
Proof.
  intros len Hp. subst len.
  rewrite (nextSlide_value carousel p), (prevSlide_value carousel p) by done.
  rewrite (nextSlide_value carousel (Z.of_nat (length (slides carousel)) - 1)) by lia.
  rewrite (prevSlide_value carousel 0) by lia.
  destruct (Z.eqb_spec (p + 1) (Z.of_nat (length (slides carousel)))) as [Hlast|Hlast];
  destruct (Z.eqb_spec p 0) as [Hfirst|Hfirst].
  all: rewrite ?prevSlide_value, ?nextSlide_value by lia.
  all: repeat split; try (eexists; split; [reflexivity|lia]).
  all: f_equal.
  all: repeat match goal with
         | |- context [Z.eqb ?a ?b] => destruct (Z.eqb_spec a b)
         end; lia.
Qed.

Lemma next_prev_inverse_witness :
  prevSlide photoB (nextSlide photoB (Some 1)) = Some 1
  /\ nextSlide photoB (Some 1) = Some 0.
Proof.
  destruct (next_prev_inverse photoB 1 ltac:(simpl; lia)) as (H1 & _ & H3 & _).
  split; [exact H1 | exact H3].
Defined.

Lemma clicks_in_range (carousel : Carousel) (clicks : list Click) :
  Forall (offered carousel) clicks ->
  forall p : Z,
    0 <= p < Z.of_nat (length (slides carousel)) ->
    exists k, foldl (click carousel) (Some p) clicks = Some k
              /\ 0 <= k < Z.of_nat (length (slides carousel)).
Proof.
  induction 1 as [|ck clicks Hck _ IH]; intros p Hp; [exists p; by split|].
  change (foldl (click carousel) (Some p) (ck :: clicks))
    with (foldl (click carousel) (click carousel (Some p) ck) clicks).
  destruct ck as [| |index]; simpl in Hck.
  - change (click carousel (Some p) ClickNext) with (nextSlide carousel (Some p)).
    rewrite nextSlide_value by done. apply IH.
    destruct (Z.eqb_spec (p + 1) (Z.of_nat (length (slides carousel)))); lia.
  - change (click carousel (Some p) ClickPrev) with (prevSlide carousel (Some p)).
    rewrite prevSlide_value by done. apply IH.
    destruct (Z.eqb_spec p 0); lia.
  - apply IH. lia.
Qed.

(** X17.  Starting from slide 0, whatever sequence of offered clicks the
    user makes (arrows, shown for more than one slide, and dots), the current
    index never becomes [NaN] and always designates a slide of a non-empty
    carousel: [carousel.slides[currentSlide]] is never [undefined]. *)
Theorem navigation_stays_on_a_slide (carousel : Carousel) (clicks : list Click) :
  slides carousel <> [] ->
  Forall (offered carousel) clicks ->
  exists (k : Z) (slide : Slide),
    foldl (click carousel) (Some 0) clicks = Some k
    /\ 0 <= k < Z.of_nat (length (slides carousel))
    /\ currentSlideOf carousel (Some k) = Some slide.
Proof.
  intros Hne Hclicks.
  destruct (clicks_in_range carousel clicks Hclicks 0) as (k & Hk & Hrange).
  { destruct (slides carousel); [done | simpl; lia]. }
  destruct (lookup_lt_is_Some_2 (slides carousel) (Z.to_nat k)) as [slide Hslide]; [lia|].
  exists k, slide. split; [done|]. split; [done|].
  simpl. by rewrite (proj2 (Z.ltb_ge k 0)) by lia.
Qed.

Lemma navigation_stays_on_a_slide_witness :
  exists (k : Z) (slide : Slide),
    foldl (click photoB) (Some 0) [ClickPrev; ClickNext; ClickNext; ClickDot 1; ClickNext]
    = Some k /\ 0 <= k < 2 /\ currentSlideOf photoB (Some k) = Some slide.
Proof.
  apply (navigation_stays_on_a_slide photoB
           [ClickPrev; ClickNext; ClickNext; ClickDot 1; ClickNext]).
  - done.
  - repeat constructor; simpl; lia.
Defined.

(** ** Generation state and what is displayed *)

(** X18.  While a generation runs the loader is shown.  When it fails, the
    error panel is shown with the exception's message, or with "An unknown
    error occurred." when the message is missing or empty, and never the
    carousels of an earlier generation.  When it succeeds, the carousels of
    the reply are shown, or the no-results notice when the reply has none, and
    no earlier error. *)
Theorem generation_outcome_displayed (st : AppState) :
  ResultsDisplay (generation_started st) = ShowLoader
  /\ (forall message,
        exists shown,
          ResultsDisplay (handleGeneration (Rejected message) st) = ShowError shown
          /\ shown <> ""
          /\ shown = match message with
                     | Some m => if String.eqb m "" then "An unknown error occurred." else m
                     | None => "An unknown error occurred."
                     end)
  /\ (forall response,
        ResultsDisplay (handleGeneration (Fulfilled response) st) =
          match carrosseis response with
          | [] => ShowNoResults
          | previews => ShowCarousels previews
          end)
  /\ (forall outcome, isLoading (handleGeneration outcome st) = false).
Proof.
  split; [done|]. split; [|split; [done|by intros []]].
  intros message. unfold handleGeneration, ResultsDisplay. simpl.
  destruct message as [m|]; simpl.
  - destruct (String.eqb_spec m "") as [->|Hne]; simpl.
    + by eexists.
    + destruct (String.eqb_spec m "") as [?|_]; [done|]. by eexists.
  - by eexists.
Qed.

(** ** Grouping the CSV rows *)

Example carouselsMap_ex1 :
  carouselsMap
    [ {| Csv.carrossel_id := "c1"; Csv.ordem_slide := 2; Csv.frase := "B" |};
      {| Csv.carrossel_id := "c1"; Csv.ordem_slide := 1; Csv.frase := "A" |} ]
  = Some {[ "c1" := [ {| Csv.ordem := 1; Csv.frase_item := "A" |};
                      {| Csv.ordem := 2; Csv.frase_item := "B" |} ] ]}.
Proof. vm_compute. reflexivity. Qed.

Lemma insertItem_perm (x : Csv.Item) (l : list Csv.Item) : insertItem x l ≡ₚ x :: l.
Proof.
  induction l as [|y l IH]; simpl; [done|].
  destruct (Csv.ordem x <? Csv.ordem y); [done|].
  rewrite IH. apply Permutation_swap.
Qed.

Lemma insertItem_sorted (x : Csv.Item) (l : list Csv.Item) :
  StronglySorted le_ordem l -> StronglySorted le_ordem (insertItem x l).
Proof.
  induction 1 as [|y l Hl IH Hy]; simpl.
  - repeat constructor.
  - destruct (Z.ltb_spec (Csv.ordem x) (Csv.ordem y)) as [Hlt|Hge].
    + constructor; [by constructor|]. constructor; [unfold le_ordem; lia|].
      eapply Forall_impl; [exact Hy|]. unfold le_ordem. intros z Hz. lia.
    + constructor; [done|]. rewrite insertItem_perm. by constructor.
Qed.

Lemma filter_ordem_none (k : Z) (l : list Csv.Item) :
  Forall (fun z => Csv.ordem z <> k) l -> filter (fun y => Csv.ordem y = k) l = [].
Proof.
  induction 1 as [|z l Hz _ IH]; [done|].
  rewrite filter_cons. by destruct (decide (Csv.ordem z = k)).
Qed.

Lemma insertItem_filter (k : Z) (x : Csv.Item) (l : list Csv.Item) :
  StronglySorted le_ordem l ->
  filter (fun y => Csv.ordem y = k) (insertItem x l) =
    filter (fun y => Csv.ordem y = k) l
    ++ filter (fun y => Csv.ordem y = k) [x].
Proof.
  induction 1 as [|y l Hl IH Hy]; [done|]. simpl insertItem.
  destruct (Z.ltb_spec (Csv.ordem x) (Csv.ordem y)) as [Hlt|Hge].
  - rewrite (filter_cons _ x), (filter_cons _ x []), filter_nil.
    destruct (decide (Csv.ordem x = k)) as [Hk|Hk]; [|by rewrite app_nil_r].
    rewrite (filter_ordem_none k (y :: l)); [done|].
    constructor; [lia|]. eapply Forall_impl; [exact Hy|].
    unfold le_ordem. intros z Hz. lia.
  - rewrite !(filter_cons _ y), IH. by destruct (decide (Csv.ordem y = k)).
Qed.

Lemma sort_loop (l : list Csv.Item) :
  forall acc : list Csv.Item,
    StronglySorted le_ordem acc ->
    StronglySorted le_ordem (foldl (fun acc x => insertItem x acc) acc l)
    /\ foldl (fun acc x => insertItem x acc) acc l ≡ₚ acc ++ l
    /\ forall k, filter (fun y => Csv.ordem y = k)
                   (foldl (fun acc x => insertItem x acc) acc l)
                 = filter (fun y => Csv.ordem y = k) (acc ++ l).
Proof.
  induction l as [|x l IH]; intros acc Hacc; simpl.
  - by rewrite app_nil_r.
  - destruct (IH (insertItem x acc) (insertItem_sorted x acc Hacc)) as (H1 & H2 & H3).
    split; [done|]. split.
    + rewrite H2, insertItem_perm. simpl. apply Permutation_middle.
    + intros k. rewrite H3, !filter_app, insertItem_filter by done.
      rewrite (filter_cons _ x l), (filter_cons _ x []), filter_nil.
      rewrite <- app_assoc. by destruct (decide (Csv.ordem x = k)).
Qed.

(** X19.  The sort of a carousel's items puts them in ascending order of
    [ordem], keeps every item exactly once, and keeps items of equal [ordem] in
    the order they had (the order of the CSV rows). *)
Theorem sortByOrdem_stable (l : list Csv.Item) :
  StronglySorted (fun a b => Csv.ordem a <= Csv.ordem b) (sortByOrdem l)
  /\ sortByOrdem l ≡ₚ l
  /\ (forall k, filter (fun y => Csv.ordem y = k) (sortByOrdem l)
                = filter (fun y => Csv.ordem y = k) l)
  /\ (StronglySorted (fun a b => Csv.ordem a <= Csv.ordem b) l -> sortByOrdem l = l).
Proof.
  destruct (sort_loop l [] (SSorted_nil _)) as (H1 & H2 & H3).
  split; [exact H1|]. split; [exact H2|]. split; [exact H3|].
  intros Hl. unfold sortByOrdem.
  assert (Hgen : forall acc, StronglySorted le_ordem (acc ++ l) ->
            foldl (fun acc x => insertItem x acc) acc l = acc ++ l).
  { clear. induction l as [|x l IH]; intros acc Hs; simpl; [by rewrite app_nil_r|].
    assert (Hins : insertItem x acc = acc ++ [x]).
    { clear IH. induction acc as [|y acc IHacc]; [done|]. simpl.
      apply StronglySorted_inv in Hs as [Hs Hy].
      rewrite Forall_app, Forall_cons in Hy. destruct Hy as (_ & Hyx & _).
      unfold le_ordem in Hyx.
      rewrite (proj2 (Z.ltb_ge (Csv.ordem x) (Csv.ordem y))) by lia.
      by rewrite IHacc. }
    rewrite Hins, IH; [by rewrite <- app_assoc|]. by rewrite <- app_assoc. }
  by apply (Hgen []).
Qed.

Lemma itemsOf_cons (id : string) (row : Csv.CsvRow) (rows : list Csv.CsvRow) :
  itemsOf id (row :: rows) =
    (if decide (Csv.carrossel_id row = id) then [itemOf row] else []) ++ itemsOf id rows.
Proof.
  unfold itemsOf. rewrite filter_cons.
  by destruct (decide (Csv.carrossel_id row = id)).
Qed.

Lemma addRow_ok (m : gmap string (list Csv.Item)) (row : Csv.CsvRow) :
  acc_ok m ->
  Csv.carrossel_id row ∉ objectPrototypeKeys ->
  exists m', addRow m row = Some m'
    /\ acc_ok m'
    /\ forall id, default [] (m' !! id) =
                  default [] (m !! id)
                  ++ (if decide (Csv.carrossel_id row = id) then [itemOf row] else []).
Proof.
  intros [Hproto Hne] Hid. unfold addRow.
  destruct (m !! Csv.carrossel_id row) as [items|] eqn:Hm.
  - eexists. split; [done|]. split; [split|].
    + intros id Hin. rewrite lookup_insert_ne; [by apply Hproto|]. by intros <-.
    + intros id. destruct (decide (Csv.carrossel_id row = id)) as [<-|Hneq].
      * rewrite lookup_insert_eq. intros [= H]. by destruct items.
      * rewrite lookup_insert_ne by done. apply Hne.
    + intros id. destruct (decide (Csv.carrossel_id row = id)) as [<-|Hneq].
      * by rewrite lookup_insert_eq, Hm.
      * rewrite lookup_insert_ne by done. by rewrite app_nil_r.
  - rewrite bool_decide_eq_false_2 by done.
    eexists. split; [done|]. split; [split|].
    + intros id Hin. rewrite lookup_insert_ne; [by apply Hproto|]. by intros <-.
    + intros id. destruct (decide (Csv.carrossel_id row = id)) as [<-|Hneq].
      * by rewrite lookup_insert_eq.
      * rewrite lookup_insert_ne by done. apply Hne.
    + intros id. destruct (decide (Csv.carrossel_id row = id)) as [<-|Hneq].
      * by rewrite lookup_insert_eq, Hm.
      * rewrite lookup_insert_ne by done. by rewrite app_nil_r.
Qed.

Lemma group_loop_ok (rows : list Csv.CsvRow) :
  forall m : gmap string (list Csv.Item),
    acc_ok m ->
    Forall (fun row => Csv.carrossel_id row ∉ objectPrototypeKeys) rows ->
    exists m',
      foldl (fun acc row => acc ≫= fun m => addRow m row) (Some m) rows = Some m'
      /\ acc_ok m'
      /\ forall id, default [] (m' !! id) = default [] (m !! id) ++ itemsOf id rows.
Proof.
  induction rows as [|row rows IH]; intros m Hm Hrows.
  - exists m. split; [done|]. split; [done|]. intros id. by rewrite app_nil_r.
  - apply Forall_cons in Hrows as [Hrow Hrows].
    destruct (addRow_ok m row Hm Hrow) as (m1 & Hadd & Hm1 & Hget1).
    destruct (IH m1 Hm1 Hrows) as (m' & Hfold & Hm' & Hget).
    exists m'. simpl. rewrite Hadd. split; [done|]. split; [done|].
    intros id. by rewrite Hget, Hget1, itemsOf_cons, app_assoc.
Qed.

Lemma group_loop_none (rows : list Csv.CsvRow) :
  foldl (fun acc row => acc ≫= fun m => addRow m row) None rows = None.
Proof. by induction rows. Qed.

Lemma group_loop_throws (rows : list Csv.CsvRow) :
  forall m : gmap string (list Csv.Item),
    acc_ok m ->
    Exists (fun row => Csv.carrossel_id row ∈ objectPrototypeKeys) rows ->
    foldl (fun acc row => acc ≫= fun m => addRow m row) (Some m) rows = None.
Proof.
  induction rows as [|row rows IH]; intros m Hm Hex; [by apply Exists_nil in Hex|].
  simpl. destruct (decide (Csv.carrossel_id row ∈ objectPrototypeKeys)) as [Hin|Hnot].
  - unfold addRow. rewrite (proj1 Hm) by done.
    rewrite bool_decide_eq_true_2 by done. apply group_loop_none.
  - apply Exists_cons in Hex as [?|Hex]; [done|].
    destruct (addRow_ok m row Hm Hnot) as (m1 & -> & Hm1 & _). by apply IH.
Qed.

Lemma acc_ok_empty : acc_ok ∅.
Proof. split; intros id; by rewrite ?lookup_empty. Qed.

(** X20.  Grouping the CSV rows: when no carousel id is a property name
    inherited from [Object.prototype], every carousel id of the rows gets
    exactly the phrases of its own rows, sorted by ascending [ordem] (rows of
    equal [ordem] in file order), and no other id gets an entry, whatever the
    order of the rows and however the carousels are interleaved. *)
Theorem carouselsMap_groups (rows : list Csv.CsvRow) :
  Forall (fun row => Csv.carrossel_id row ∉ objectPrototypeKeys) rows ->
  exists m,
    carouselsMap rows = Some m
    /\ forall id,
         m !! id = if decide (itemsOf id rows = []) then None
                   else Some (sortByOrdem (itemsOf id rows)).
Proof.
  intros Hrows.
  destruct (group_loop_ok rows ∅ acc_ok_empty Hrows) as (m & Hfold & [_ Hne] & Hget).
  exists (sortByOrdem <$> m). unfold carouselsMap, groupRows. rewrite Hfold.
  split; [done|]. intros id. rewrite lookup_fmap.
  specialize (Hget id). rewrite lookup_empty in Hget. simpl in Hget.
  destruct (m !! id) as [items|] eqn:Hm; simpl in *.
  - subst items. rewrite decide_False; [done|]. intros Heq.
    apply (Hne id). by rewrite Hm, Heq.
  - by rewrite <- Hget, decide_True.
Qed.

Lemma carouselsMap_groups_witness :
  exists m,
    carouselsMap
      [ {| Csv.carrossel_id := "c1"; Csv.ordem_slide := 2; Csv.frase := "B" |};
        {| Csv.carrossel_id := "c2"; Csv.ordem_slide := 1; Csv.frase := "X" |};
        {| Csv.carrossel_id := "c1"; Csv.ordem_slide := 1; Csv.frase := "A" |} ]
    = Some m
    /\ m !! "c1" = Some [ {| Csv.ordem := 1; Csv.frase_item := "A" |};
                          {| Csv.ordem := 2; Csv.frase_item := "B" |} ]
    /\ m !! "c3" = None.
Proof.
  destruct (carouselsMap_groups
              [ {| Csv.carrossel_id := "c1"; Csv.ordem_slide := 2; Csv.frase := "B" |};
                {| Csv.carrossel_id := "c2"; Csv.ordem_slide := 1; Csv.frase := "X" |};
                {| Csv.carrossel_id := "c1"; Csv.ordem_slide := 1; Csv.frase := "A" |} ])
    as (m & Hm & Hget).
  - apply (bool_decide_unpack _). vm_compute. exact I.
  - exists m. split; [exact Hm|]. rewrite !Hget. split; reflexivity.
Defined.

(** X21.  The grouping throws, and so the whole CSV generation fails,
    exactly when some row's carousel id is a property name inherited from
    [Object.prototype] (such as "constructor" or "toString"): the accumulator
    is a plain object, the inherited value passes the [!acc[id]] test and has
    no [push]. *)
Theorem carouselsMap_throws_iff (rows : list Csv.CsvRow) :
  carouselsMap rows = None <->
  exists row, row ∈ rows /\ Csv.carrossel_id row ∈ objectPrototypeKeys.
Proof.
  rewrite <- Exists_exists. unfold carouselsMap, groupRows. split.
  - intros Hnone.
    destruct (decide (Exists (fun row => Csv.carrossel_id row ∈ objectPrototypeKeys) rows))
      as [Hex|Hnex]; [done|].
    apply not_Exists_Forall in Hnex; [|apply _].
    destruct (group_loop_ok rows ∅ acc_ok_empty Hnex) as (m & Hfold & _).
    by rewrite Hfold in Hnone.
  - intros Hex. by rewrite (group_loop_throws rows ∅ acc_ok_empty Hex).
Qed.

(** ** Reading the CSV file *)

Example processFile_ex1 :
  processFile sampleTrim sampleParseInt "text/csv"
    (join_on (String newline "")
       ["carrossel_id,ordem_slide,frase"; "c1,2,  Ola, mundo "; "c1,x,sem ordem";
        ",3,sem id"; "c2,1"; ""; "c2,7,fim"])
  = Some [ {| Csv.carrossel_id := "c1"; Csv.ordem_slide := 2; Csv.frase := "Ola, mundo" |};
           {| Csv.carrossel_id := "c2"; Csv.ordem_slide := 7; Csv.frase := "fim" |} ].
Proof. vm_compute. reflexivity. Qed.

Section SplitOn.
Variable sep : ascii.

Lemma split_on_nonempty (s : string) : split_on sep s <> [].
Proof.
  destruct s as [|c s]; simpl; [done|].
  destruct (Ascii.eqb c sep); [done|]. by destruct (split_on sep s).
Qed.

Lemma split_on_no_char (s : string) :
  Forall (fun w => no_char sep w = true) (split_on sep s).
Proof.
  induction s as [|c s IH]; simpl.
  - by apply Forall_singleton.
  - destruct (Ascii.eqb c sep) eqn:Hc.
    + by apply Forall_cons.
    + destruct (split_on sep s) as [|w ws]; simpl.
      * apply Forall_singleton. simpl. by rewrite Hc.
      * apply Forall_cons in IH as [Hw Hws]. apply Forall_cons. split; [|done].
        simpl. by rewrite Hc, Hw.
Qed.

Lemma split_on_word (w rest : string) :
  no_char sep w = true ->
  split_on sep (w +:+ String sep rest) = w :: split_on sep rest.
Proof.
  induction w as [|c w IH]; intros Hw.
  - rewrite str_app_nil_l. simpl. by rewrite Ascii.eqb_refl.
  - simpl in Hw. apply andb_true_iff in Hw as [Hc Hw]. apply negb_true_iff in Hc.
    rewrite str_app_cons. simpl. rewrite Hc, IH by done. reflexivity.
Qed.

Lemma split_on_single (w : string) :
  no_char sep w = true -> split_on sep w = [w].
Proof.
  induction w as [|c w IH]; intros Hw; [done|].
  simpl in Hw. apply andb_true_iff in Hw as [Hc Hw]. apply negb_true_iff in Hc.
  simpl. by rewrite Hc, IH.
Qed.

Lemma split_on_join (g : list string) :
  g <> [] -> Forall (fun w => no_char sep w = true) g ->
  split_on sep (join_on (String sep "") g) = g.
Proof.
  induction g as [|w g IH]; intros Hne Hg; [done|].
  apply Forall_cons in Hg as [Hw Hg]. destruct g as [|w' g].
  - by apply split_on_single.
  - change (join_on (String sep "") (w :: w' :: g))
      with (w +:+ String sep "" +:+ join_on (String sep "") (w' :: g)).
    rewrite str_app_cons, str_app_nil_l, split_on_word by done. by rewrite IH.
Qed.

Lemma join_on_split (s : string) : join_on (String sep "") (split_on sep s) = s.
Proof.
  induction s as [|c s IH]; [done|]. simpl.
  destruct (Ascii.eqb_spec c sep) as [->|Hc].
  - destruct (split_on sep s) as [|w ws] eqn:Hs; [by destruct (split_on_nonempty s)|].
    change (join_on (String sep "") ("" :: w :: ws))
      with ("" +:+ String sep "" +:+ join_on (String sep "") (w :: ws)).
    by rewrite IH.
  - destruct (split_on sep s) as [|w ws] eqn:Hs; [by destruct (split_on_nonempty s)|].
    destruct ws as [|w' ws].
    + simpl in *. by rewrite IH.
    + change (join_on (String sep "") (String c w :: w' :: ws))
        with (String c (w +:+ String sep "" +:+ join_on (String sep "") (w' :: ws))).
      by rewrite <- IH.
Qed.
End SplitOn.

Lemma remove_quotes_clean (s : string) : no_char quote (remove_quotes s) = true.
Proof.
  induction s as [|c s IH]; [done|]. simpl.
  destruct (Ascii.eqb c quote) eqn:Hc; [done|]. simpl. by rewrite Hc.
Qed.

(** X22.  A line [id,ordem,rest] whose first two fields hold no comma is
    read as carousel id [id], [parseInt(ordem)] and, as the phrase, everything
    after the second comma with its own commas kept, every double quote
    removed, then trimmed.  A line with fewer than three fields has the empty
    phrase before trimming, and a line without any comma has no order field
    at all ([parseInt(undefined)]). *)
Theorem parseLine_fields (trim : string -> string)
    (parseInt : option string -> option Z) (id ord rest : string) :
  no_char comma id = true ->
  no_char comma ord = true ->
  parseLine trim parseInt (id +:+ "," +:+ ord +:+ "," +:+ rest)
  = {| raw_id := id; raw_ordem := parseInt (Some ord);
       raw_frase := trim (remove_quotes rest) |}
  /\ parseLine trim parseInt (id +:+ "," +:+ ord)
     = {| raw_id := id; raw_ordem := parseInt (Some ord); raw_frase := trim "" |}
  /\ parseLine trim parseInt id
     = {| raw_id := id; raw_ordem := parseInt None; raw_frase := trim "" |}
  /\ no_char quote (remove_quotes rest) = true.
Proof.
  intros Hid Hord. unfold parseLine.
  change ("," +:+ ord +:+ "," +:+ rest) with (String comma (ord +:+ String comma rest)).
  change ("," +:+ ord) with (String comma ord).
  rewrite !split_on_word, (split_on_single comma ord), (split_on_single comma id) by done.
  cbn [head tail default].
  change ("," : string) with (String comma "").
  rewrite join_on_split.
  split; [done|]. split; [done|]. split; [done|]. apply remove_quotes_clean.
Qed.

Lemma parseLine_fields_witness :
  parseLine sampleTrim sampleParseInt ("c1" +:+ "," +:+ "2" +:+ "," +:+ " Ola, 'mundo' ")
  = {| raw_id := "c1"; raw_ordem := Some 2; raw_frase := "Ola, 'mundo'" |}.
Proof.
  apply (parseLine_fields sampleTrim sampleParseInt "c1" "2" " Ola, 'mundo' ");
    reflexivity.
Defined.

Lemma split_on_keeps_clean (sep c : ascii) (s : string) :
  no_char c s = true -> Forall (fun w => no_char c w = true) (split_on sep s).
Proof.
  induction s as [|ch s IH]; intros Hs.
  - by apply Forall_singleton.
  - simpl in Hs. apply andb_true_iff in Hs as [Hch Hs]. specialize (IH Hs). simpl.
    destruct (Ascii.eqb ch sep); [by apply Forall_cons|].
    destruct (split_on sep s) as [|w ws].
    + apply Forall_singleton. simpl. by rewrite Hch.
    + apply Forall_cons in IH as [Hw Hws]. apply Forall_cons. split; [|done].
      simpl. by rewrite Hch, Hw.
Qed.

Lemma omap_keep_fmap (trim : string -> string) (parseInt : option string -> option Z)
    (lines : list string) :
  omap keepRow (parseLine trim parseInt <$> lines)
  = omap (fun l => keepRow (parseLine trim parseInt l)) lines.
Proof.
  induction lines as [|l lines IH]; [done|].
  rewrite fmap_cons. simpl.
  destruct (keepRow (parseLine trim parseInt l)); [f_equal|]; apply IH.
Qed.

Lemma keepRow_spec (r : RawRow) (row : Csv.CsvRow) :
  keepRow r = Some row ->
  Csv.carrossel_id row = raw_id r /\ raw_ordem r = Some (Csv.ordem_slide row)
  /\ Csv.frase row = raw_frase r /\ raw_id r <> "" /\ raw_frase r <> "".
Proof.
  unfold keepRow. destruct (raw_ordem r) as [n|]; [|done].
  destruct (String.eqb_spec (raw_id r) ""); [done|].
  destruct (String.eqb_spec (raw_frase r) ""); [done|].
  simpl. by intros [= <-].
Qed.

(** X23.  Only a file of type [text/csv] is read.  Its first line is
    skipped whatever it holds, every other line is read on its own, and a line
    ends up in the data only with a non-empty carousel id (free of commas and
    line breaks), a numeric order and a non-empty phrase: a file with just a
    header yields no rows. *)
Theorem processFile_lines (trim : string -> string)
    (parseInt : option string -> option Z) (header : string) (lines : list string) :
  no_char newline header = true ->
  Forall (fun l => no_char newline l = true) lines ->
  processFile trim parseInt "text/csv"
    (join_on (String newline "") (header :: lines))
  = Some (omap (fun l => keepRow (parseLine trim parseInt l)) lines)
  /\ (forall fileType text, fileType <> "text/csv" ->
        processFile trim parseInt fileType text = None)
  /\ (forall rows row fileType text,
        processFile trim parseInt fileType text = Some rows -> row ∈ rows ->
        Csv.carrossel_id row <> "" /\ Csv.frase row <> ""
        /\ no_char comma (Csv.carrossel_id row) = true
        /\ no_char newline (Csv.carrossel_id row) = true).
Proof.
  intros Hheader Hlines. split; [|split].
  - unfold processFile. rewrite omap_keep_fmap.
    rewrite split_on_join; [|done|by apply Forall_cons]. reflexivity.
  - intros fileType text Hne. unfold processFile.
    by destruct (String.eqb_spec fileType "text/csv").
  - intros rows row fileType text Hrows Hrow. unfold processFile in Hrows.
    destruct (String.eqb fileType "text/csv"); [|done].
    injection Hrows as <-. rewrite omap_keep_fmap in Hrow.
    apply list_elem_of_omap in Hrow as (l & Hl & Hkeep).
    apply keepRow_spec in Hkeep as (Hid & _ & Hfrase & Hid0 & Hfrase0).
    rewrite Hid, Hfrase. split; [done|]. split; [done|].
    assert (Hclean : no_char newline l = true).
    { pose proof (split_on_no_char newline text) as Hall.
      rewrite Forall_forall in Hall. apply Hall.
      destruct (split_on newline text); [by apply elem_of_nil in Hl|].
      by apply list_elem_of_further. }
    unfold parseLine. simpl raw_id.
    pose proof (split_on_no_char comma l) as Hc.
    pose proof (split_on_keeps_clean comma newline l Hclean) as Hn.
    destruct (split_on comma l) as [|w ws]; [done|].
    apply Forall_cons in Hc as [Hc _]. apply Forall_cons in Hn as [Hn _]. done.
Qed.

Lemma processFile_lines_witness :
  processFile sampleTrim sampleParseInt "text/csv"
    (join_on (String newline "") ["carrossel_id,ordem_slide,frase"; "c1,1,Ola"; "c1"])
  = Some [ {| Csv.carrossel_id := "c1"; Csv.ordem_slide := 1; Csv.frase := "Ola" |} ].
Proof.
  apply (processFile_lines sampleTrim sampleParseInt "carrossel_id,ordem_slide,frase"
           ["c1,1,Ola"; "c1"]).
  - reflexivity.
  - repeat constructor.
Defined.
